(** * circuitbreaker: the rolling window of success and failure counts

    A shallow embedding of [window.go]: a ring of buckets, the rotation
    performed by [getLatestBucket], and the aggregate queries.

    The code is modelled sequentially: the mutex [bucketLock] and the
    atomicity of the counter updates are not represented; every operation
    runs to completion before the next one starts. *)

From Stdlib Require Import ZArith Lia Bool.
From Stdlib.Floats Require Import SpecFloat.
From stdpp Require Import base tactics option list.

Local Open Scope Z_scope.

(** ** Machine integers *)

Module Int64.
Definition min_int : Z := - 2 ^ 63.
Definition max_int : Z := 2 ^ 63 - 1.

(** Two's complement wrap-around of a mathematical integer. *)
Definition wrap (z : Z) : Z := (z + 2 ^ 63) mod 2 ^ 64 - 2 ^ 63.

Definition add (a b : Z) : Z := wrap (a + b).
Definition sub (a b : Z) : Z := wrap (a - b).

Definition in_range (z : Z) : Prop := min_int <= z <= max_int.
End Int64.

Module Uint64.
Definition wrap (z : Z) : Z := z mod 2 ^ 64.
Definition add (a b : Z) : Z := wrap (a + b).
End Uint64.

(** ** Outcomes of Go calls

    None of the functions of [window.go] returns an error value; what can
    go wrong is a run-time panic of the Go runtime. *)

Inductive runtime_error : Type :=
| MakesliceLenOutOfRange   (* make([]T, n) with n < 0 or n too large *)
| IntegerDivideByZero.     (* x / 0 or x % 0 on integers *)

Inductive outcome (A : Type) : Type :=
| Returns (a : A)
| Panics (e : runtime_error).
Arguments Returns {A} a.
Arguments Panics {A} e.

Definition bind {A B} (o : outcome A) (k : A -> outcome B) : outcome B :=
  match o with
  | Returns a => k a
  | Panics e => Panics e
  end.

Notation "'let*' x ':=' o 'in' k" := (bind o (fun x => k))
  (at level 10, x pattern, o at level 100, k at level 200).

(** ** Time

    [time.Time] is an instant in nanoseconds, [time.Duration] a signed
    64-bit count of nanoseconds.  [Time.Sub] saturates at the bounds of
    [Duration]. *)

Definition Time : Type := Z.
Definition Duration : Type := Z.

Definition Sub (t u : Time) : Duration :=
  Z.max Int64.min_int (Z.min Int64.max_int (t - u)).

Definition Millisecond : Duration := 1000000.
Definition Second : Duration := 1000000000.

(** The default time the window covers, 10 seconds, and the default
    number of buckets. *)
Definition DefaultWindowTime : Duration := Millisecond * 10000.
Definition DefaultWindowBuckets : Z := 10.

(** [clock.Clock]: the window only ever calls [Now()].  A clock is a
    reference to a clock object; the store gives the current reading of
    each one.  [clock_Add] is the mock clock's [Add]. *)

Definition Clock : Type := nat.
Definition clocks : Type := Clock -> Time.

Definition Now (cs : clocks) (c : Clock) : Time := cs c.

Definition clock_Add (cs : clocks) (c : Clock) (d : Duration) : clocks :=
  fun c' => if Nat.eqb c' c then cs c + d else cs c'.

(** ** bucket *)

Record bucket : Type := mkBucket {
  failure : Z;   (* int64 *)
  success : Z    (* int64 *)
}.

Definition bucket_Reset (b : bucket) : bucket :=
  {| failure := 0; success := 0 |}.

Definition bucket_Fail (b : bucket) : bucket :=
  {| failure := Int64.add (failure b) 1; success := success b |}.

Definition bucket_Success (b : bucket) : bucket :=
  {| failure := failure b; success := Int64.add (success b) 1 |}.

(** ** window *)

Record window : Type := mkWindow {
  buckets : list bucket;
  bucketTime : Duration;
  lastAccess : Time;
  lastIdx : Z;     (* uint64 *)
  clock : Clock
}.

Definition len (w : window) : Z := Z.of_nat (length (buckets w)).

(** [make([]bucket, n)] goes through the runtime's [makeslice], which
    panics with [len out of range] when the length is negative or when the
    memory asked for, [n] times the size of a bucket, overflows or exceeds
    [maxAlloc].  A [bucket] is two [int64], 16 bytes; [maxAlloc] is
    [1 << heapAddrBits], with the 48 address bits of the 64-bit ports
    (linux/amd64 among them).  A request that passes the test is taken to
    be served: running out of memory is a fatal error of the runtime that
    ends the process, not a panic, and the memory of the machine is not
    modelled. *)
Definition bucket_size : Z := 16.
Definition maxAlloc : Z := 2 ^ 48.

Definition make_buckets (n : Z) : outcome (list bucket) :=
  if (n <? 0) || (maxAlloc <? bucket_size * n)
  then Panics MakesliceLenOutOfRange
  else Returns (replicate (Z.to_nat n) (mkBucket 0 0)).

(** Signed 64-bit division, truncated towards zero. *)
Definition int64_div (a b : Z) : outcome Z :=
  if b =? 0 then Panics IntegerDivideByZero
  else Returns (Int64.wrap (Z.quot a b)).

(** [a % b] on uint64. *)
Definition uint64_mod (a b : Z) : outcome Z :=
  if b =? 0 then Panics IntegerDivideByZero
  else Returns (a mod b).

Definition newWindow (windowTime : Duration) (windowBuckets : Z)
    (cs : clocks) (clock : Clock) : outcome window :=
  let* bs := make_buckets windowBuckets in
  let* bt := int64_div windowTime windowBuckets in
  Returns {| buckets := bs;
             bucketTime := bt;
             lastAccess := Now cs clock;
             lastIdx := 0;
             clock := clock |}.

(** The rotation loop of [getLatestBucket]; [iters] is the number of
    iterations the loop counter [i] still allows.  The state is the window,
    the bucket pointer [b] (an index into [buckets]) and the remaining
    [elapsed].  The ring is not empty here: the index computation that
    precedes the loop has already divided by its length. *)
Fixpoint rotate (iters : nat) (w : window) (b : nat) (elapsed : Duration)
    : window * nat :=
  match iters with
  | O => (w, b)
  | S iters' =>
      let idx := Uint64.add (lastIdx w) 1 in
      let b' := Z.to_nat (idx mod len w) in
      let w' := {| buckets := alter bucket_Reset b' (buckets w);
                   bucketTime := bucketTime w;
                   lastAccess := lastAccess w;
                   lastIdx := idx;
                   clock := clock w |} in
      let elapsed' := Int64.sub elapsed (bucketTime w) in
      if elapsed' <? bucketTime w then (w', b')
      else rotate iters' w' b' elapsed'
  end.

Definition set_lastAccess (w : window) (t : Time) : window :=
  {| buckets := buckets w;
     bucketTime := bucketTime w;
     lastAccess := t;
     lastIdx := lastIdx w;
     clock := clock w |}.

(** [getLatestBucket] returns a pointer into [w.buckets]: here the window
    as the call leaves it and the index of the bucket pointed to. *)
Definition getLatestBucket (cs : clocks) (w : window) : outcome (window * nat) :=
  let n := len w in
  let* i := uint64_mod (lastIdx w) n in
  let b := Z.to_nat i in
  let now := Now cs (clock w) in
  let elapsed := Sub now (lastAccess w) in
  if bucketTime w <? elapsed then
    let '(w', b') := rotate (Z.to_nat n) w b elapsed in
    Returns (set_lastAccess w' now, b')
  else Returns (w, b).

Definition set_buckets (w : window) (bs : list bucket) : window :=
  {| buckets := bs;
     bucketTime := bucketTime w;
     lastAccess := lastAccess w;
     lastIdx := lastIdx w;
     clock := clock w |}.

(** [Fail] and [Success] increment the bucket [getLatestBucket] returned. *)
Definition Fail (cs : clocks) (w : window) : outcome window :=
  let* (w', b) := getLatestBucket cs w in
  Returns (set_buckets w' (alter bucket_Fail b (buckets w'))).

Definition Success (cs : clocks) (w : window) : outcome window :=
  let* (w', b) := getLatestBucket cs w in
  Returns (set_buckets w' (alter bucket_Success b (buckets w'))).

(** The aggregate queries accumulate in an [int64]. *)
Definition Failures (w : window) : Z :=
  fold_left (fun acc b => Int64.add acc (failure b)) (buckets w) 0.

Definition Successes (w : window) : Z :=
  fold_left (fun acc b => Int64.add acc (success b)) (buckets w) 0.

Definition Total (w : window) : Z :=
  fold_left (fun acc b => Int64.add acc (Int64.add (success b) (failure b)))
            (buckets w) 0.

(** [Reset] resets the counts of all buckets and touches nothing else. *)
Definition Reset (w : window) : window :=
  set_buckets w (map bucket_Reset (buckets w)).

(** ** float64

    IEEE 754 binary64 as specified by [SpecFloat]: 53 bits of precision,
    round to nearest, ties to even. *)

Definition prec : Z := 53.
Definition emax : Z := 1024.

Definition float64 : Type := spec_float.

(** The conversion [float64(x)] of an [int64]. *)
Definition float64_of_int64 (x : Z) : float64 :=
  binary_normalize prec emax x 0 false.

Definition float64_div (x y : float64) : float64 := SFdiv prec emax x y.

Definition float64_zero : float64 := S754_zero false.
Definition float64_one : float64 := S754_finite false (2 ^ 52) (-52).
Definition float64_half : float64 := S754_finite false (2 ^ 52) (-53).

Definition float64_leb (x y : float64) : bool := SFleb x y.

(** [ErrorRate] sums the successes into [total] and the failures into
    [failures], adds the two, and divides as [float64] unless the total
    is 0. *)
Definition ErrorRate (w : window) : float64 :=
  let '(total, failures) :=
    fold_left (fun '(total, failures) b =>
                 (Int64.add total (success b), Int64.add failures (failure b)))
              (buckets w) (0, 0) in
  let total := Int64.add total failures in
  if total =? 0 then float64_zero
  else float64_div (float64_of_int64 failures) (float64_of_int64 total).

(** ** Sequential executions

    What a caller (or the test's mock clock) can do to a window, and the
    state these steps act on: the clock store and the window. *)

Inductive op : Type :=
| OpFail
| OpSuccess
| OpReset
| OpAdd (c : Clock) (d : Duration).   (* the mock clock's Add *)

Definition state : Type := (clocks * window)%type.

Definition step (s : state) (o : op) : outcome state :=
  let '(cs, w) := s in
  match o with
  | OpFail => let* w' := Fail cs w in Returns (cs, w')
  | OpSuccess => let* w' := Success cs w in Returns (cs, w')
  | OpReset => Returns (cs, Reset w)
  | OpAdd c d => Returns (clock_Add cs c d, w)
  end.

Fixpoint run (s : state) (ops : list op) : outcome state :=
  match ops with
  | [] => Returns s
  | o :: ops' => let* s' := step s o in run s' ops'
  end.

(** A window state is reachable when some execution from a freshly
    constructed window ends in it. *)
Definition reachable_by (ops : list op) (s : state) : Prop :=
  exists windowTime windowBuckets cs0 c w0,
    newWindow windowTime windowBuckets cs0 c = Returns w0 /\
    run (cs0, w0) ops = Returns s.

Definition is_Fail (o : op) : bool :=
  match o with OpFail => true | _ => false end.
Definition is_Success (o : op) : bool :=
  match o with OpSuccess => true | _ => false end.
Definition is_Reset (o : op) : bool :=
  match o with OpReset => true | _ => false end.

Fixpoint count_ops (f : op -> bool) (ops : list op) : Z :=
  match ops with
  | [] => 0
  | o :: ops' => (if f o then 1 else 0) + count_ops f ops'
  end.

(** [within_bucket c la bt now ops]: along [ops], started when clock [c]
    reads [now], every [Fail] and [Success] is called at a time the
    rotation test [elapsed > bucketTime] rejects, for a window whose last
    access is [la] and bucket duration [bt]: no call crosses a bucket
    boundary. *)
Fixpoint within_bucket (c : Clock) (la : Time) (bt : Duration) (now : Time)
    (ops : list op) : bool :=
  match ops with
  | [] => true
  | OpAdd c' d :: ops' =>
      within_bucket c la bt (if Nat.eqb c c' then now + d else now) ops'
  | OpReset :: ops' => within_bucket c la bt now ops'
  | _ :: ops' => (Sub now la <=? bt) && within_bucket c la bt now ops'
  end.

(** Mathematical sums of the counters of a ring. *)
Definition sum_failure (bs : list bucket) : Z :=
  foldr (fun b acc => failure b + acc) 0 bs.

Definition sum_success (bs : list bucket) : Z :=
  foldr (fun b acc => success b + acc) 0 bs.

(** ** Auxiliary notions of the proofs *)

(** The ring position the cursor points to after [j] more increments. *)
Definition ring_index (w : window) (j : Z) : nat :=
  Z.to_nat (Uint64.wrap (lastIdx w + j) mod len w).

Definition zero_bucket : bucket := mkBucket 0 0.

(** [advanced k w w' b']: [w'] is [w] after [k] turns of the rotation loop,
    [b'] the bucket the loop ends on. *)
Record advanced (k : Z) (w w' : window) (b' : nat) : Prop := {
  adv_lastIdx : lastIdx w' = Uint64.wrap (lastIdx w + k);
  adv_current : b' = Z.to_nat (lastIdx w' mod len w);
  adv_reset : forall j, 1 <= j <= k ->
    buckets w' !! ring_index w j = Some zero_bucket;
  adv_kept : forall i, (forall j, 1 <= j <= k -> i <> ring_index w j) ->
    buckets w' !! i = buckets w !! i
}.

Definition nonneg (bs : list bucket) : Prop :=
  Forall (fun b => 0 <= failure b /\ 0 <= success b) bs.

Definition sum_all (bs : list bucket) : Z := sum_failure bs + sum_success bs.

(** The invariant of executions short enough not to overflow a counter:
    the ring is not empty, every counter is non-negative, the failure
    counters add up to at most [kf] and the success counters to at most
    [ks]. *)
Definition counted (kf ks : Z) (w : window) : Prop :=
  0 < len w /\ nonneg (buckets w) /\
  sum_failure (buckets w) <= kf /\ sum_success (buckets w) <= ks.

(** The number of buckets that report a failure, as the test counts them. *)
Definition failing_buckets (w : window) : nat :=
  length (List.filter (fun b => 0 <? failure b) (buckets w)).

(** *** Construction failures *)

(** The failures a caller of the constructor can meet: the kind the
    specification names, and the panics of the Go runtime. *)
Inductive failure_kind : Type :=
| InvalidConfiguration
| RuntimePanic (e : runtime_error).

Definition failure_of {A} (o : outcome A) : option failure_kind :=
  match o with
  | Returns _ => None
  | Panics e => Some (RuntimePanic e)
  end.

(** *** Rounding to [float64] *)

(** Whether rounding [a / 2^n] to nearest, ties to even, rounds up. *)
Definition up (a n : Z) : bool :=
  Z.odd (a / 2 ^ (n - 1)) && (negb (a mod 2 ^ (n - 1) =? 0) || Z.odd (a / 2 ^ n)).

(** The second half of [binary_round_aux]: a rounded mantissa that
    reached [2^53] is renormalised. *)
Definition finish (sx : bool) (m e : Z) : float64 :=
  let '(mrs, e') := shr_fexp prec emax m e loc_Exact in
  match shr_m mrs with
  | Z0 => S754_zero sx
  | Zpos p => if e' <=? emax - prec then S754_finite sx p e' else S754_infinity sx
  | Zneg _ => S754_nan
  end.

(** The mantissa and exponent of [float64(a)] for a positive [int64]. *)
Definition round_int (a : Z) : Z * Z :=
  let d := Zdigits2 a in
  if d <=? 53 then (a * 2 ^ (53 - d), d - 53)
  else
    let n := d - 53 in
    let m1 := a / 2 ^ n + (if up a n then 1 else 0) in
    if m1 =? 2 ^ 53 then (2 ^ 52, n + 1) else (m1, n).

(** ** Notions used by the further properties *)

(** The index of the bucket the cursor points to. *)
Definition current (w : window) : nat := Z.to_nat (lastIdx w mod len w).

(** The operations made after the last [Reset] (all of them when there was
    none). *)
Fixpoint since_reset (ops : list op) : list op :=
  match ops with
  | [] => []
  | o :: ops' =>
      if existsb is_Reset ops' then since_reset ops'
      else if is_Reset o then ops' else o :: ops'
  end.

(** A clock that is never set back: every [Add] is by a non-negative
    duration. *)
Fixpoint forward_only (ops : list op) : bool :=
  match ops with
  | [] => true
  | OpAdd _ d :: ops' => (0 <=? d) && forward_only ops'
  | _ :: ops' => forward_only ops'
  end.

(** The buckets ahead of the cursor have never been written. *)
Definition untouched_beyond (w : window) : Prop :=
  forall i : nat, lastIdx w < Z.of_nat i -> (i < length (buckets w))%nat ->
    buckets w !! i = Some zero_bucket.

(** The invariant of the first lap of the cursor, for a window of [n]
    buckets of duration [bt] built when its clock [c] read [t0]: the cursor
    has advanced at most once per [bt] of time gone by, and everything
    ahead of it is still zero. *)
Record first_lap (t0 : Time) (c : Clock) (bt : Duration) (n : Z)
    (cs : clocks) (w : window) : Prop := {
  fl_len : len w = n;
  fl_bucketTime : bucketTime w = bt;
  fl_clock : clock w = c;
  fl_cursor : 0 <= lastIdx w;
  fl_pace : lastIdx w * bt <= lastAccess w - t0;
  fl_past : lastAccess w <= Now cs c;
  fl_ahead : untouched_beyond w;
  fl_nonneg : nonneg (buckets w)
}.

(** ** Example executions *)

(** A clock store in which every clock reads the epoch. *)
Definition clock0 : clocks := fun _ => 0.

(** Two failures and a success in the first bucket, then a failure 6ms
    later, in the second bucket of a 10ms window. *)
Definition example_ops : list op :=
  [OpFail; OpFail; OpSuccess; OpAdd 0%nat (6 * Millisecond); OpFail].

Definition example_window : window :=
  {| buckets := [mkBucket 2 1; mkBucket 1 0];
     bucketTime := 5 * Millisecond;
     lastAccess := 6 * Millisecond;
     lastIdx := 1;
     clock := 0%nat |}.

Definition example_state : state :=
  (clock_Add clock0 0%nat (6 * Millisecond), example_window).

(** The same window seen 12ms after its last rotation. *)
Definition late_clock : clocks := fun _ => 18 * Millisecond.

(** ** The saturating bucket *)

Module Limited.

(** Modelled from the spec: the bucket with a limited-failure counter and
    its [FailLimited] operation, which [window.go] does not contain (its
    bucket has the two counters [failure] and [success] only).  The
    definitions follow sections 3 and 4.1 of the specification. *)
Record bucket : Type := mkBucket {
  failure : Z;   (* int64 *)
  success : Z;   (* int64 *)
  limited : Z    (* int64 *)
}.

(** Modelled from the spec: "atomically zeroes success, failure, and
    limited-failure counters". *)
Definition Reset (b : bucket) : bucket :=
  {| failure := 0; success := 0; limited := 0 |}.

(** Modelled from the spec: "atomically increments the failure counter by
    1". *)
Definition Fail (b : bucket) : bucket :=
  {| failure := Int64.add (failure b) 1;
     success := success b;
     limited := limited b |}.

(** Modelled from the spec: "atomically increments the success counter by
    1". *)
Definition Success (b : bucket) : bucket :=
  {| failure := failure b;
     success := Int64.add (success b) 1;
     limited := limited b |}.

(** Modelled from the spec: "atomically increments the failure counter
    only while its current value is below cap; once the cap is reached,
    further failure events instead increment the limited-failure counter
    ... When cap is 0 or unset, behaves as unbounded Fail()". *)
Definition FailLimited (cap : Z) (b : bucket) : bucket :=
  if cap =? 0 then Fail b
  else if failure b <? cap then
    {| failure := Int64.add (failure b) 1;
       success := success b;
       limited := limited b |}
  else
    {| failure := failure b;
       success := success b;
       limited := Int64.add (limited b) 1 |}.

(** The events one bucket receives during its interval. *)
Inductive event : Type := EvFail | EvSuccess.

Definition record (cap : Z) (b : bucket) (e : event) : bucket :=
  match e with
  | EvFail => FailLimited cap b
  | EvSuccess => Success b
  end.

Definition record_all (cap : Z) (b : bucket) (es : list event) : bucket :=
  fold_left (record cap) es b.

Fixpoint failures_in (es : list event) : Z :=
  match es with
  | [] => 0
  | EvFail :: es' => 1 + failures_in es'
  | EvSuccess :: es' => failures_in es'
  end.

End Limited.

(** The two counters the saturating bucket shares with the bucket of
    [window.go]. *)
Definition forget (b : Limited.bucket) : bucket :=
  mkBucket (Limited.failure b) (Limited.success b).

(** * Properties *)

(** Linear arithmetic with the bounds of [int64] unfolded. *)
Ltac int64_lia :=
  unfold Int64.in_range, Int64.min_int, Int64.max_int, sum_all in *; lia.

(** ** Machine arithmetic *)

Lemma wrap_range z : Int64.in_range (Int64.wrap z).
Proof.
  unfold Int64.in_range, Int64.wrap, Int64.min_int, Int64.max_int.
  pose proof (Z.mod_pos_bound (z + 2 ^ 63) (2 ^ 64) ltac:(lia)). lia.
Qed.

Lemma wrap_id z : Int64.in_range z -> Int64.wrap z = z.
Proof.
  unfold Int64.in_range, Int64.wrap, Int64.min_int, Int64.max_int. intros H.
  rewrite Z.mod_small by lia. lia.
Qed.

Lemma wrap_wrap z : Int64.wrap (Int64.wrap z) = Int64.wrap z.
Proof. apply wrap_id, wrap_range. Qed.

Lemma wrap_add_l a b : Int64.wrap (Int64.wrap a + b) = Int64.wrap (a + b).
Proof.
  unfold Int64.wrap. f_equal.
  replace ((a + 2 ^ 63) mod 2 ^ 64 - 2 ^ 63 + b + 2 ^ 63)
    with ((a + 2 ^ 63) mod 2 ^ 64 + b) by lia.
  rewrite Zplus_mod_idemp_l. f_equal. lia.
Qed.

Lemma wrap_add_r a b : Int64.wrap (a + Int64.wrap b) = Int64.wrap (a + b).
Proof. rewrite (Z.add_comm a), wrap_add_l. f_equal. lia. Qed.

(** ** The aggregate queries as sums *)

Lemma fold_add_sum (f : bucket -> Z) bs : forall acc,
  fold_left (fun acc b => Int64.add acc (f b)) bs (Int64.wrap acc)
  = Int64.wrap (acc + foldr (fun b r => f b + r) 0 bs).
Proof.
  induction bs as [|b bs IH]; intros acc; simpl.
  - f_equal. lia.
  - unfold Int64.add at 2. rewrite wrap_add_l, IH. f_equal. lia.
Qed.

Lemma Failures_sum w : Failures w = Int64.wrap (sum_failure (buckets w)).
Proof.
  unfold Failures, sum_failure.
  change 0 with (Int64.wrap 0) at 1. now rewrite fold_add_sum.
Qed.

Lemma Successes_sum w : Successes w = Int64.wrap (sum_success (buckets w)).
Proof.
  unfold Successes, sum_success.
  change 0 with (Int64.wrap 0) at 1. now rewrite fold_add_sum.
Qed.

Lemma wrap_sum_both bs :
  Int64.wrap (foldr (fun b r => Int64.add (success b) (failure b) + r) 0 bs)
  = Int64.wrap (sum_failure bs + sum_success bs).
Proof.
  induction bs as [|b bs IH]; [reflexivity|].
  cbn [foldr sum_failure sum_success].
  fold (sum_failure bs) (sum_success bs).
  unfold Int64.add in *. rewrite wrap_add_l, <- wrap_add_r, IH, wrap_add_r.
  f_equal. lia.
Qed.

Lemma Total_sum w :
  Total w = Int64.wrap (sum_failure (buckets w) + sum_success (buckets w)).
Proof.
  unfold Total. change 0 with (Int64.wrap 0) at 1.
  rewrite (fold_add_sum (fun b => Int64.add (success b) (failure b))).
  simpl. apply wrap_sum_both.
Qed.

Lemma Total_add w : Total w = Int64.add (Failures w) (Successes w).
Proof.
  rewrite Total_sum, Failures_sum, Successes_sum. unfold Int64.add.
  now rewrite wrap_add_l, wrap_add_r.
Qed.

(** ** Reset *)

Lemma sum_failure_Reset bs : sum_failure (map bucket_Reset bs) = 0.
Proof. induction bs as [|b bs IH]; simpl; [reflexivity | exact IH]. Qed.

Lemma sum_success_Reset bs : sum_success (map bucket_Reset bs) = 0.
Proof. induction bs as [|b bs IH]; simpl; [reflexivity | exact IH]. Qed.

(** C7: after [Reset], whatever the window held before, [Failures],
    [Successes] and [Total] all return 0. *)
Theorem Reset_clears_counts (w : window) :
  Failures (Reset w) = 0 /\ Successes (Reset w) = 0 /\ Total (Reset w) = 0.
Proof.
  rewrite Failures_sum, Successes_sum, Total_sum. simpl.
  rewrite sum_failure_Reset, sum_success_Reset. repeat split.
Qed.

(** C8: [Reset] zeroes every bucket of the ring and leaves the rotation
    index, the last-access time, the bucket duration, the number of buckets
    and the clock (the reference and every clock's reading) as they were. *)
Theorem Reset_frame (cs : clocks) (w : window) :
  step (cs, w) OpReset = Returns (cs, Reset w) /\
  Forall (fun b => b = mkBucket 0 0) (buckets (Reset w)) /\
  length (buckets (Reset w)) = length (buckets w) /\
  lastIdx (Reset w) = lastIdx w /\
  lastAccess (Reset w) = lastAccess w /\
  bucketTime (Reset w) = bucketTime w /\
  clock (Reset w) = clock w.
Proof.
  repeat split; simpl.
  - apply Forall_forall. intros b Hb.
    apply list_elem_of_In, in_map_iff in Hb. destruct Hb as (b0 & <- & _).
    reflexivity.
  - apply length_map.
Qed.

(** ** Rotation *)

Lemma Sub_range t u : Int64.in_range (Sub t u).
Proof. unfold Sub, Int64.in_range, Int64.min_int, Int64.max_int. lia. Qed.

Lemma uint64_wrap_succ x j :
  Uint64.wrap (Uint64.add x 1 + j) = Uint64.wrap (x + (1 + j)).
Proof.
  unfold Uint64.add, Uint64.wrap. rewrite Zplus_mod_idemp_l. f_equal. lia.
Qed.

Lemma rotate_frame iters : forall w b e w' b',
  rotate iters w b e = (w', b') ->
  bucketTime w' = bucketTime w /\ lastAccess w' = lastAccess w /\
  clock w' = clock w /\ length (buckets w') = length (buckets w).
Proof.
  induction iters as [|iters IH]; intros w b e w' b' H; simpl in H.
  - inversion H; subst. auto.
  - destruct (Int64.sub e (bucketTime w) <? bucketTime w).
    + inversion H; subst; simpl. rewrite length_alter. auto.
    + apply IH in H. simpl in H. rewrite length_alter in H. exact H.
Qed.

Lemma rotate_keeps_zero iters : forall w b e w' b' i,
  rotate iters w b e = (w', b') ->
  buckets w !! i = Some zero_bucket -> buckets w' !! i = Some zero_bucket.
Proof.
  induction iters as [|iters IH]; intros w b e w' b' i H Hz; simpl in H.
  - inversion H; subst. exact Hz.
  - assert (Hstep : forall k,
      alter bucket_Reset k (buckets w) !! i = Some zero_bucket).
    { intros k. destruct (decide (k = i)) as [->|Hne].
      - rewrite list_lookup_alter_eq, Hz. reflexivity.
      - rewrite list_lookup_alter_ne by exact Hne. exact Hz. }
    destruct (Int64.sub e (bucketTime w) <? bucketTime w).
    + inversion H; subst; simpl. apply Hstep.
    + eapply IH; [exact H|]. simpl. apply Hstep.
Qed.

Lemma rotate_advanced iters : forall w b e w' b',
  0 < len w -> 0 < bucketTime w -> bucketTime w <= e <= Int64.max_int ->
  rotate (S iters) w b e = (w', b') ->
  advanced (Z.min (Z.of_nat (S iters)) (e / bucketTime w)) w w' b'.
Proof.
  induction iters as [|iters IH]; intros w b e w' b' Hn Hbt He H.
  - (* the loop counter allows one turn only *)
    assert (Hq : 1 <= e / bucketTime w)
      by (apply Z.div_le_lower_bound; lia).
    replace (Z.min (Z.of_nat 1) (e / bucketTime w)) with 1 by lia.
    simpl in H.
    assert (Hres : (w', b') =
      ({| buckets := alter bucket_Reset
                       (Z.to_nat (Uint64.add (lastIdx w) 1 mod len w)) (buckets w);
          bucketTime := bucketTime w; lastAccess := lastAccess w;
          lastIdx := Uint64.add (lastIdx w) 1; clock := clock w |},
       Z.to_nat (Uint64.add (lastIdx w) 1 mod len w)))
      by (destruct (_ <? _); congruence).
    clear H. inversion Hres; subst; clear Hres.
    pose proof (Z.mod_pos_bound (Uint64.add (lastIdx w) 1) (len w) Hn) as Hlt.
    split; simpl.
    + reflexivity.
    + reflexivity.
    + intros j Hj. assert (j = 1) as -> by lia.
      unfold ring_index. fold (Uint64.add (lastIdx w) 1).
      rewrite list_lookup_alter_eq.
      destruct (lookup_lt_is_Some_2 (buckets w)
                  (Z.to_nat (Uint64.add (lastIdx w) 1 mod len w))) as [x Hx].
      { unfold len in *. lia. }
      rewrite Hx. reflexivity.
    + intros i Hi. apply list_lookup_alter_ne.
      specialize (Hi 1 ltac:(lia)). unfold ring_index in Hi.
      fold (Uint64.add (lastIdx w) 1) in Hi. congruence.
  - remember (S iters) as it eqn:Hit.
    simpl in H.
    set (idx := Uint64.add (lastIdx w) 1) in *.
    set (b1 := Z.to_nat (idx mod len w)) in *.
    set (w1 := {| buckets := alter bucket_Reset b1 (buckets w);
                  bucketTime := bucketTime w; lastAccess := lastAccess w;
                  lastIdx := idx; clock := clock w |}) in *.
    assert (He' : Int64.sub e (bucketTime w) = e - bucketTime w).
    { apply wrap_id. int64_lia. }
    rewrite He' in H.
    pose proof (Z.mod_pos_bound idx (len w) Hn) as Hlt.
    assert (Hb1 : buckets w1 !! b1 = Some zero_bucket).
    { simpl. rewrite list_lookup_alter_eq.
      destruct (lookup_lt_is_Some_2 (buckets w) b1) as [x Hx].
      { unfold b1, len in *. lia. }
      rewrite Hx. reflexivity. }
    assert (Hlen1 : len w1 = len w).
    { unfold len. simpl. now rewrite length_alter. }
    assert (Hidx1 : forall j, ring_index w1 j = ring_index w (1 + j)).
    { intros j. unfold ring_index. rewrite Hlen1. simpl. unfold idx.
      now rewrite uint64_wrap_succ. }
    assert (Hb1' : b1 = ring_index w 1).
    { unfold b1, ring_index, idx, Uint64.add. reflexivity. }
    destruct (e - bucketTime w <? bucketTime w) eqn:Hcmp.
    + (* the remaining time is below one bucket: stop *)
      apply Z.ltb_lt in Hcmp.
      assert (Hq : e / bucketTime w = 1).
      { symmetry. apply (Z.div_unique e (bucketTime w) 1 (e - bucketTime w)); lia. }
      rewrite Hq. replace (Z.min (Z.of_nat (S it)) 1) with 1 by lia.
      inversion H; subst w' b'; clear H.
      split.
      * reflexivity.
      * reflexivity.
      * intros j Hj. assert (j = 1) as -> by lia. rewrite <- Hb1'. exact Hb1.
      * intros i Hi. simpl. apply list_lookup_alter_ne.
        specialize (Hi 1 ltac:(lia)). congruence.
    + apply Z.ltb_ge in Hcmp.
      subst it.
      pose proof (rotate_keeps_zero _ _ _ _ _ _ b1 H Hb1) as Hkeep.
      apply IH in H; [| lia | simpl; lia | simpl; lia].
      simpl bucketTime in H.
      assert (Hq : e / bucketTime w = 1 + (e - bucketTime w) / bucketTime w).
      { replace e with ((e - bucketTime w) + 1 * bucketTime w) at 1 by lia.
        rewrite Z.div_add by lia. lia. }
      assert (0 <= (e - bucketTime w) / bucketTime w)
        by (apply Z.div_pos; lia).
      set (k' := Z.min (Z.of_nat (S iters)) ((e - bucketTime w) / bucketTime w)) in *.
      replace (Z.min (Z.of_nat (S (S iters))) (e / bucketTime w)) with (1 + k')
        by (unfold k'; lia).
      destruct H as [HI HC HR HK].
      split.
      * rewrite HI. simpl. unfold idx. now rewrite uint64_wrap_succ.
      * rewrite HC, Hlen1. reflexivity.
      * intros j Hj. destruct (decide (j = 1)) as [->|Hj1].
        -- rewrite <- Hb1'. exact Hkeep.
        -- replace j with (1 + (j - 1)) by lia. rewrite <- Hidx1.
           apply HR. lia.
      * intros i Hi. rewrite HK.
        -- simpl. apply list_lookup_alter_ne.
           specialize (Hi 1 ltac:(lia)). congruence.
        -- intros j Hj. rewrite Hidx1. apply Hi. lia.
Qed.

Lemma ring_index_cover w (i : nat) :
  0 <= lastIdx w -> lastIdx w + len w < 2 ^ 64 -> (i < length (buckets w))%nat ->
  exists j, 1 <= j <= len w /\ ring_index w j = i.
Proof.
  intros Hlo Hhi Hi. unfold len in *.
  set (n := Z.of_nat (length (buckets w))) in *.
  assert (Hn : 0 < n) by lia.
  exists ((Z.of_nat i - lastIdx w - 1) mod n + 1).
  pose proof (Z.mod_pos_bound (Z.of_nat i - lastIdx w - 1) n Hn).
  split; [lia|].
  unfold ring_index, Uint64.wrap, len. fold n.
  rewrite (Z.mod_small (lastIdx w + _) (2 ^ 64)) by lia.
  replace (lastIdx w + ((Z.of_nat i - lastIdx w - 1) mod n + 1))
    with ((lastIdx w + 1) + (Z.of_nat i - lastIdx w - 1) mod n) by lia.
  rewrite Zplus_mod_idemp_r.
  replace (lastIdx w + 1 + (Z.of_nat i - lastIdx w - 1)) with (Z.of_nat i) by lia.
  rewrite Z.mod_small by lia. lia.
Qed.

Lemma advanced_full w w' b' :
  0 <= lastIdx w -> lastIdx w + len w < 2 ^ 64 ->
  length (buckets w') = length (buckets w) ->
  advanced (len w) w w' b' ->
  buckets w' = replicate (length (buckets w)) zero_bucket.
Proof.
  intros Hlo Hhi Hlen [_ _ HR _]. apply list_eq. intros i.
  destruct (decide (i < length (buckets w))%nat) as [Hi|Hi].
  - destruct (ring_index_cover w i Hlo Hhi Hi) as (j & Hj & <-).
    rewrite HR by exact Hj. symmetry. apply lookup_replicate_2.
    rewrite <- Hlen. eapply lookup_lt_Some, HR, Hj.
  - rewrite lookup_ge_None_2 by lia. symmetry.
    apply lookup_replicate_None. lia.
Qed.

(** The rotation step on a window [w] that has a bucket, read against the
    clock store [cs]. *)
Section Rotation.

Variables (cs : clocks) (w : window).
Hypothesis nonempty : 0 < len w.

Lemma getLatestBucket_same :
  Sub (Now cs (clock w)) (lastAccess w) <= bucketTime w ->
  getLatestBucket cs w = Returns (w, Z.to_nat (lastIdx w mod len w)).
Proof.
  intros He. pose proof nonempty as Hn. unfold getLatestBucket, uint64_mod.
  destruct (len w =? 0) eqn:H0; [apply Z.eqb_eq in H0; lia|]. simpl.
  destruct (bucketTime w <? _) eqn:Hlt; [apply Z.ltb_lt in Hlt; lia|].
  reflexivity.
Qed.

Lemma getLatestBucket_rotates :
  0 < bucketTime w ->
  bucketTime w < Sub (Now cs (clock w)) (lastAccess w) ->
  exists w' b',
    getLatestBucket cs w = Returns (set_lastAccess w' (Now cs (clock w)), b') /\
    advanced (Z.min (len w) (Sub (Now cs (clock w)) (lastAccess w) / bucketTime w))
             w w' b' /\
    bucketTime w' = bucketTime w /\ clock w' = clock w /\
    length (buckets w') = length (buckets w).
Proof.
  intros Hbt He. pose proof nonempty as Hn. unfold getLatestBucket, uint64_mod.
  destruct (len w =? 0) eqn:H0; [apply Z.eqb_eq in H0; lia|]. simpl.
  destruct (bucketTime w <? _) eqn:Hlt; [|apply Z.ltb_ge in Hlt; lia].
  destruct (rotate _ _ _ _) as [w' b'] eqn:Hrot.
  exists w', b'. split; [reflexivity|].
  pose proof (rotate_frame _ _ _ _ _ _ Hrot) as (Hf1 & _ & Hf3 & Hf4).
  assert (Hlen : exists m, Z.to_nat (len w) = S m).
  { exists (Nat.pred (Z.to_nat (len w))). lia. }
  destruct Hlen as [m Hm]. rewrite Hm in Hrot.
  apply rotate_advanced in Hrot; try lia.
  - rewrite <- Hm in Hrot. rewrite Z2Nat.id in Hrot by lia. auto.
  - pose proof (Sub_range (Now cs (clock w)) (lastAccess w)) as Hr.
    unfold Int64.in_range in Hr. lia.
Qed.

(** C3: the rotation step of [getLatestBucket], run on every [Fail] and
    [Success].  With [elapsed = now - lastAccess]: when [elapsed <=
    bucketTime] the window (cursor and every bucket) is unchanged and the
    current bucket is returned.  Otherwise, for a positive bucket duration,
    the cursor advances [k = min(bucketCount, elapsed / bucketTime)]
    positions, one per full [bucketTime] contained in [elapsed], resetting
    each bucket it moves onto and no other; the loop goes on while the
    remaining time is at least [bucketTime] and stops as soon as it is
    below, after at most [bucketCount] resets; [lastAccess] becomes [now];
    and a gap of the whole window or more resets every bucket (for a
    cursor that does not wrap around its 64 bits meanwhile). *)
Theorem getLatestBucket_rotation :
  let now := Now cs (clock w) in
  let elapsed := Sub now (lastAccess w) in
  let bt := bucketTime w in
  let k := Z.min (len w) (elapsed / bt) in
  (elapsed <= bt ->
     getLatestBucket cs w = Returns (w, Z.to_nat (lastIdx w mod len w))) /\
  (0 < bt -> bt < elapsed ->
     exists w' b',
       getLatestBucket cs w = Returns (w', b') /\
       1 <= k <= len w /\
       lastIdx w' = Uint64.wrap (lastIdx w + k) /\
       b' = Z.to_nat (lastIdx w' mod len w) /\
       (forall j, 1 <= j <= k -> buckets w' !! ring_index w j = Some zero_bucket) /\
       (forall i, (forall j, 1 <= j <= k -> i <> ring_index w j) ->
                  buckets w' !! i = buckets w !! i) /\
       (forall j, 1 <= j < k -> bt <= elapsed - j * bt) /\
       (k < len w -> elapsed - k * bt < bt) /\
       lastAccess w' = now /\ bucketTime w' = bt /\ clock w' = clock w /\
       length (buckets w') = length (buckets w) /\
       (len w * bt <= elapsed -> 0 <= lastIdx w -> lastIdx w + len w < 2 ^ 64 ->
        Forall (fun b => b = zero_bucket) (buckets w'))).
Proof.
  intros now elapsed bt k. pose proof nonempty as Hn. split.
  - intros He. now apply getLatestBucket_same.
  - intros Hbt He.
    destruct (getLatestBucket_rotates Hbt He)
      as (w' & b' & Hget & Hadv & Hf1 & Hf3 & Hf4).
    fold now elapsed bt k in Hget, Hadv.
    exists (set_lastAccess w' now), b'.
    assert (Hq : 1 <= elapsed / bt) by (apply Z.div_le_lower_bound; lia).
    pose proof (Z.mul_div_le elapsed bt Hbt) as Hlo.
    pose proof (Z.mul_succ_div_gt elapsed bt Hbt) as Hhi.
    destruct Hadv as [HI HC HR HK].
    split; [exact Hget|]. split; [lia|]. simpl.
    repeat split; try assumption.
    + intros j Hj. nia.
    + intros Hk. assert (k = elapsed / bt) as -> by lia. nia.
    + intros Hfull Hlo' Hhi'.
      assert (Hkn : k = len w).
      { assert (len w <= elapsed / bt) by (apply Z.div_le_lower_bound; lia).
        lia. }
      rewrite (advanced_full w w' b' Hlo' Hhi' Hf4).
      * apply Forall_forall. intros b Hb. now apply elem_of_replicate in Hb.
      * rewrite <- Hkn. now split.
Qed.

End Rotation.

(** ** Counters that have not overflowed *)

Lemma sum_failure_alter g i bs b :
  bs !! i = Some b ->
  sum_failure (alter g i bs) = sum_failure bs - failure b + failure (g b).
Proof.
  unfold sum_failure.
  revert i. induction bs as [|x bs IH]; intros [|i] H; simpl in *;
    try discriminate.
  - inversion H; subst. lia.
  - specialize (IH i H).
    change (alter g i bs) with (list_alter g i bs) in IH. lia.
Qed.

Lemma sum_success_alter g i bs b :
  bs !! i = Some b ->
  sum_success (alter g i bs) = sum_success bs - success b + success (g b).
Proof.
  unfold sum_success.
  revert i. induction bs as [|x bs IH]; intros [|i] H; simpl in *;
    try discriminate.
  - inversion H; subst. lia.
  - specialize (IH i H).
    change (alter g i bs) with (list_alter g i bs) in IH. lia.
Qed.

Lemma nonneg_sums bs : nonneg bs -> 0 <= sum_failure bs /\ 0 <= sum_success bs.
Proof.
  induction 1 as [|b bs [Hf Hs] _ IH]; simpl; lia.
Qed.

Lemma nonneg_lookup bs i b :
  nonneg bs -> bs !! i = Some b ->
  0 <= failure b <= sum_failure bs /\ 0 <= success b <= sum_success bs.
Proof.
  intros Hnn. revert i. induction Hnn as [|x bs [Hf Hs] Hnn IH]; intros [|i] H;
    simpl in *; try discriminate.
  - inversion H; subst. apply nonneg_sums in Hnn. lia.
  - specialize (IH i H). lia.
Qed.

Lemma nonneg_alter g i bs b :
  nonneg bs -> bs !! i = Some b ->
  0 <= failure (g b) /\ 0 <= success (g b) ->
  nonneg (alter g i bs).
Proof.
  intros Hnn. revert i. induction Hnn as [|x bs Hx Hnn IH]; intros [|i] H Hg;
    simpl in *; try discriminate.
  - inversion H; subst. constructor; assumption.
  - constructor; [assumption|]. now apply IH.
Qed.

Lemma nonneg_replicate n : nonneg (replicate n zero_bucket).
Proof. apply Forall_replicate. simpl. lia. Qed.

Lemma sum_failure_replicate n : sum_failure (replicate n zero_bucket) = 0.
Proof. induction n; simpl; lia. Qed.

Lemma sum_success_replicate n : sum_success (replicate n zero_bucket) = 0.
Proof. induction n; simpl; lia. Qed.

(** Recording in a bucket whose counters are far from the top of [int64]. *)
Lemma record_Fail i bs :
  (i < length bs)%nat -> nonneg bs -> sum_all bs < Int64.max_int ->
  nonneg (alter bucket_Fail i bs) /\
  sum_failure (alter bucket_Fail i bs) = sum_failure bs + 1 /\
  sum_success (alter bucket_Fail i bs) = sum_success bs.
Proof.
  intros Hi Hnn Hsum. destruct (lookup_lt_is_Some_2 bs i Hi) as [b Hb].
  pose proof (nonneg_lookup _ _ _ Hnn Hb) as [Hf Hs].
  pose proof (nonneg_sums _ Hnn) as [Hsf Hss].
  assert (Hadd : Int64.add (failure b) 1 = failure b + 1).
  { apply wrap_id. int64_lia. }
  split; [|split].
  - apply (nonneg_alter _ _ _ b Hnn Hb). simpl. lia.
  - rewrite (sum_failure_alter _ _ _ _ Hb). simpl. lia.
  - rewrite (sum_success_alter _ _ _ _ Hb). simpl. lia.
Qed.

Lemma record_Success i bs :
  (i < length bs)%nat -> nonneg bs -> sum_all bs < Int64.max_int ->
  nonneg (alter bucket_Success i bs) /\
  sum_failure (alter bucket_Success i bs) = sum_failure bs /\
  sum_success (alter bucket_Success i bs) = sum_success bs + 1.
Proof.
  intros Hi Hnn Hsum. destruct (lookup_lt_is_Some_2 bs i Hi) as [b Hb].
  pose proof (nonneg_lookup _ _ _ Hnn Hb) as [Hf Hs].
  pose proof (nonneg_sums _ Hnn) as [Hsf Hss].
  assert (Hadd : Int64.add (success b) 1 = success b + 1).
  { apply wrap_id. int64_lia. }
  split; [|split].
  - apply (nonneg_alter _ _ _ b Hnn Hb). simpl. lia.
  - rewrite (sum_failure_alter _ _ _ _ Hb). simpl. lia.
  - rewrite (sum_success_alter _ _ _ _ Hb). simpl. lia.
Qed.

Lemma reset_one i bs :
  nonneg bs ->
  nonneg (alter bucket_Reset i bs) /\
  sum_failure (alter bucket_Reset i bs) <= sum_failure bs /\
  sum_success (alter bucket_Reset i bs) <= sum_success bs.
Proof.
  intros Hnn. destruct (bs !! i) as [b|] eqn:Hb.
  - pose proof (nonneg_lookup _ _ _ Hnn Hb) as [Hf Hs].
    split; [|split].
    + apply (nonneg_alter _ _ _ b Hnn Hb). simpl. lia.
    + rewrite (sum_failure_alter _ _ _ _ Hb). simpl. lia.
    + rewrite (sum_success_alter _ _ _ _ Hb). simpl. lia.
  - assert (Hid : alter bucket_Reset i bs = bs).
    { apply list_eq. intros j. destruct (decide (i = j)) as [->|Hne].
      - rewrite list_lookup_alter_eq, Hb. reflexivity.
      - now apply list_lookup_alter_ne. }
    rewrite Hid. split; [assumption | lia].
Qed.

Lemma rotate_counts iters : forall w b e w' b',
  rotate iters w b e = (w', b') -> nonneg (buckets w) ->
  nonneg (buckets w') /\
  sum_failure (buckets w') <= sum_failure (buckets w) /\
  sum_success (buckets w') <= sum_success (buckets w).
Proof.
  induction iters as [|iters IH]; intros w b e w' b' H Hnn; simpl in H.
  - inversion H; subst. repeat split; [assumption | lia | lia].
  - pose proof (reset_one
      (Z.to_nat (Uint64.add (lastIdx w) 1 mod len w)) _ Hnn) as (Hn1 & Hf1 & Hs1).
    destruct (Int64.sub e (bucketTime w) <? bucketTime w).
    + inversion H; subst; simpl. auto.
    + apply IH in H; [|exact Hn1]. simpl in H. destruct H as (? & ? & ?).
      repeat split; [assumption | lia | lia].
Qed.

Lemma rotate_index iters : forall w b e w' b',
  rotate iters w b e = (w', b') -> 0 < len w ->
  (b < length (buckets w))%nat -> (b' < length (buckets w))%nat.
Proof.
  induction iters as [|iters IH]; intros w b e w' b' H Hn Hb; simpl in H.
  - inversion H; subst. exact Hb.
  - pose proof (Z.mod_pos_bound (Uint64.add (lastIdx w) 1) (len w) Hn) as Hlt.
    destruct (Int64.sub e (bucketTime w) <? bucketTime w).
    + inversion H; subst. unfold len in *. lia.
    + apply IH in H; unfold len in *; simpl in *; rewrite ?length_alter in *;
        [exact H | lia | lia].
Qed.

(** [getLatestBucket] always returns on a ring that has a bucket. *)
Lemma getLatestBucket_returns cs w :
  0 < len w ->
  exists w' b,
    getLatestBucket cs w = Returns (w', b) /\
    (b < length (buckets w'))%nat /\
    length (buckets w') = length (buckets w) /\
    bucketTime w' = bucketTime w /\ clock w' = clock w /\
    (nonneg (buckets w) ->
     nonneg (buckets w') /\
     sum_failure (buckets w') <= sum_failure (buckets w) /\
     sum_success (buckets w') <= sum_success (buckets w)).
Proof.
  intros Hn. unfold getLatestBucket, uint64_mod.
  destruct (len w =? 0) eqn:H0; [apply Z.eqb_eq in H0; lia|]. simpl.
  pose proof (Z.mod_pos_bound (lastIdx w) (len w) Hn) as Hlt.
  assert (Hb : (Z.to_nat (lastIdx w mod len w) < length (buckets w))%nat)
    by (unfold len in *; lia).
  destruct (bucketTime w <? _).
  - destruct (rotate _ _ _ _) as [w' b'] eqn:Hrot.
    pose proof (rotate_frame _ _ _ _ _ _ Hrot) as (Hf1 & _ & Hf3 & Hf4).
    pose proof (rotate_index _ _ _ _ _ _ Hrot Hn Hb) as Hb'.
    exists (set_lastAccess w' (Now cs (clock w))), b'. simpl.
    split; [reflexivity|]. split; [lia|].
    split; [assumption|]. split; [assumption|]. split; [assumption|].
    intros Hnn. apply (rotate_counts _ _ _ _ _ _ Hrot Hnn).
  - exists w, (Z.to_nat (lastIdx w mod len w)).
    split; [reflexivity|]. split; [assumption|].
    split; [reflexivity|]. split; [reflexivity|]. split; [reflexivity|].
    intros Hnn. split; [assumption | lia].
Qed.

(** ** Executions *)

Lemma newWindow_returns windowTime n cs c w :
  newWindow windowTime n cs c = Returns w ->
  0 < n /\
  w = {| buckets := replicate (Z.to_nat n) zero_bucket;
         bucketTime := Int64.wrap (Z.quot windowTime n);
         lastAccess := Now cs c; lastIdx := 0; clock := c |}.
Proof.
  unfold newWindow, make_buckets, int64_div.
  destruct (n <? 0) eqn:Hneg; cbn [orb bind]; [discriminate|].
  destruct (maxAlloc <? bucket_size * n); cbn [bind]; [discriminate|].
  destruct (n =? 0) eqn:Hz; cbn [bind]; [discriminate|].
  intros H. inversion H; subst.
  apply Z.ltb_ge in Hneg. apply Z.eqb_neq in Hz. split; [lia | reflexivity].
Qed.

(** The runtime's test on the size of the ring, read off a window that
    was returned. *)
Lemma newWindow_alloc windowTime n cs c w :
  newWindow windowTime n cs c = Returns w -> bucket_size * n <= maxAlloc.
Proof.
  unfold newWindow, make_buckets.
  destruct (n <? 0); cbn [orb bind]; [discriminate|].
  destruct (maxAlloc <? bucket_size * n) eqn:Hbig; cbn [bind]; [discriminate|].
  intros _. now apply Z.ltb_ge in Hbig.
Qed.

(** What [newWindow] returns when its two tests pass. *)
Lemma newWindow_constructs windowTime n cs c :
  0 < n -> bucket_size * n <= maxAlloc ->
  newWindow windowTime n cs c =
  Returns {| buckets := replicate (Z.to_nat n) zero_bucket;
             bucketTime := Int64.wrap (Z.quot windowTime n);
             lastAccess := Now cs c; lastIdx := 0; clock := c |}.
Proof.
  intros Hn Hbig. unfold newWindow, make_buckets, int64_div.
  destruct (n <? 0) eqn:Hneg; [apply Z.ltb_lt in Hneg; lia|].
  destruct (maxAlloc <? bucket_size * n) eqn:Hlim; [apply Z.ltb_lt in Hlim; lia|].
  destruct (n =? 0) eqn:Hz; [apply Z.eqb_eq in Hz; lia|].
  reflexivity.
Qed.

(** A count beyond the allocation limit is refused by [make]. *)
Lemma newWindow_too_large windowTime n cs c :
  maxAlloc < bucket_size * n ->
  newWindow windowTime n cs c = Panics MakesliceLenOutOfRange.
Proof.
  intros Hbig. unfold newWindow, make_buckets.
  apply Z.ltb_lt in Hbig. rewrite Hbig, orb_true_r. reflexivity.
Qed.

(** On a ring that has a bucket no call ever faults: [Fail] and [Success]
    return and keep the number of buckets, and so does every execution. *)
Lemma step_returns cs w o :
  0 < len w ->
  exists cs' w', step (cs, w) o = Returns (cs', w') /\ len w' = len w.
Proof.
  intros Hn.
  destruct (getLatestBucket_returns cs w Hn) as (w1 & b & Hget & _ & Hlen & _).
  destruct o; cbn [step].
  - exists cs, (set_buckets w1 (alter bucket_Fail b (buckets w1))).
    unfold Fail. rewrite Hget. cbn [bind]. split; [reflexivity|].
    unfold len. simpl. now rewrite length_alter, Hlen.
  - exists cs, (set_buckets w1 (alter bucket_Success b (buckets w1))).
    unfold Success. rewrite Hget. cbn [bind]. split; [reflexivity|].
    unfold len. simpl. now rewrite length_alter, Hlen.
  - exists cs, (Reset w). split; [reflexivity|].
    unfold len. simpl. now rewrite length_map.
  - exists (clock_Add cs c d), w. split; reflexivity.
Qed.

Lemma run_returns ops : forall cs w,
  0 < len w ->
  exists cs' w', run (cs, w) ops = Returns (cs', w') /\ len w' = len w.
Proof.
  induction ops as [|o ops IH]; intros cs w Hn.
  - exists cs, w. split; reflexivity.
  - destruct (step_returns cs w o Hn) as (cs1 & w1 & Hstep & Hlen1).
    destruct (IH cs1 w1 ltac:(lia)) as (cs' & w' & Hrun & Hlen').
    exists cs', w'. cbn [run]. rewrite Hstep. cbn [bind].
    split; [exact Hrun | lia].
Qed.

Lemma count_ops_nonneg f ops : 0 <= count_ops f ops.
Proof. induction ops as [|o ops IH]; simpl; [lia | destruct (f o); lia]. Qed.

Lemma newWindow_counted windowTime n cs c w :
  newWindow windowTime n cs c = Returns w -> counted 0 0 w.
Proof.
  intros H. apply newWindow_returns in H as [Hn ->].
  unfold counted, len. simpl.
  rewrite length_replicate, sum_failure_replicate, sum_success_replicate.
  split; [lia|]. split; [apply nonneg_replicate | lia].
Qed.

Lemma Fail_counted cs w kf ks :
  counted kf ks w -> kf + ks < Int64.max_int ->
  exists w', Fail cs w = Returns w' /\ counted (kf + 1) ks w'.
Proof.
  intros (Hn & Hnn & Hsf & Hss) Hk.
  destruct (getLatestBucket_returns cs w Hn)
    as (w' & b & Hget & Hb & Hlen & _ & _ & Hcnt).
  destruct (Hcnt Hnn) as (Hnn' & Hf & Hs).
  unfold Fail. rewrite Hget. simpl. eexists; split; [reflexivity|].
  destruct (record_Fail b (buckets w') Hb Hnn') as (? & Hf' & Hs').
  { unfold sum_all in *. lia. }
  unfold counted, len in *. simpl.
  rewrite length_alter, Hf', Hs', Hlen. repeat split; [lia | assumption | lia | lia].
Qed.

Lemma Success_counted cs w kf ks :
  counted kf ks w -> kf + ks < Int64.max_int ->
  exists w', Success cs w = Returns w' /\ counted kf (ks + 1) w'.
Proof.
  intros (Hn & Hnn & Hsf & Hss) Hk.
  destruct (getLatestBucket_returns cs w Hn)
    as (w' & b & Hget & Hb & Hlen & _ & _ & Hcnt).
  destruct (Hcnt Hnn) as (Hnn' & Hf & Hs).
  unfold Success. rewrite Hget. simpl. eexists; split; [reflexivity|].
  destruct (record_Success b (buckets w') Hb Hnn') as (? & Hf' & Hs').
  { unfold sum_all in *. lia. }
  unfold counted, len in *. simpl.
  rewrite length_alter, Hf', Hs', Hlen. repeat split; [lia | assumption | lia | lia].
Qed.

Lemma counted_mono kf ks kf' ks' w :
  counted kf ks w -> kf <= kf' -> ks <= ks' -> counted kf' ks' w.
Proof.
  unfold counted. intros (? & ? & ? & ?) ? ?.
  repeat split; [lia | assumption | lia | lia].
Qed.

Lemma Reset_counted kf ks w : counted kf ks w -> counted 0 0 (Reset w).
Proof.
  intros (Hn & Hnn & _). unfold counted, len in *. simpl.
  rewrite length_map, sum_failure_Reset, sum_success_Reset.
  split; [lia|]. split; [|lia].
  apply Forall_forall. intros b Hb.
  apply list_elem_of_In, in_map_iff in Hb. destruct Hb as (b0 & <- & _).
  simpl. lia.
Qed.

(** Every execution on a window that has a bucket returns; while the
    calls of [Fail] and [Success] number fewer than [2^63], no counter
    overflows, and the counters stay below the numbers of calls. *)
Lemma run_counted ops : forall cs w kf ks,
  counted kf ks w -> 0 <= kf -> 0 <= ks ->
  kf + ks + count_ops is_Fail ops + count_ops is_Success ops <= Int64.max_int ->
  exists s, run (cs, w) ops = Returns s /\
            counted (kf + count_ops is_Fail ops)
                    (ks + count_ops is_Success ops) (snd s).
Proof.
  induction ops as [|o ops IH]; intros cs w kf ks Hc Hkf Hks Hk.
  - exists (cs, w). split; [reflexivity|]. simpl. now rewrite !Z.add_0_r.
  - pose proof (count_ops_nonneg is_Fail ops) as HN.
    pose proof (count_ops_nonneg is_Success ops) as HM.
    cbn [count_ops] in *.
    assert (Hnext : exists cs1 w1,
      step (cs, w) o = Returns (cs1, w1) /\
      counted (kf + (if is_Fail o then 1 else 0))
              (ks + (if is_Success o then 1 else 0)) w1).
    { destruct o; cbn [step is_Fail is_Success] in *.
      - destruct (Fail_counted cs w kf ks Hc ltac:(lia)) as (w1 & -> & H1).
        exists cs, w1. split; [reflexivity|]. now rewrite Z.add_0_r.
      - destruct (Success_counted cs w kf ks Hc ltac:(lia)) as (w1 & -> & H1).
        exists cs, w1. split; [reflexivity|]. now rewrite Z.add_0_r.
      - exists cs, (Reset w). split; [reflexivity|].
        apply (counted_mono 0 0); [eapply Reset_counted, Hc | lia | lia].
      - exists (clock_Add cs c d), w. split; [reflexivity|].
        now rewrite !Z.add_0_r. }
    destruct Hnext as (cs1 & w1 & Hstep & Hc1).
    destruct (IH cs1 w1 _ _ Hc1) as (s & Hrun & Hcs).
    + destruct (is_Fail o); lia.
    + destruct (is_Success o); lia.
    + destruct (is_Fail o), (is_Success o); lia.
    + exists s. split.
      * cbn [run]. rewrite Hstep. exact Hrun.
      * now rewrite !Z.add_assoc.
Qed.

Lemma reachable_counted ops s :
  reachable_by ops s ->
  count_ops is_Fail ops + count_ops is_Success ops <= Int64.max_int ->
  counted (count_ops is_Fail ops) (count_ops is_Success ops) (snd s).
Proof.
  intros (wt & n & cs & c & w0 & Hnew & Hrun) Hlen.
  apply newWindow_counted in Hnew.
  destruct (run_counted ops cs w0 0 0 Hnew ltac:(lia) ltac:(lia) ltac:(lia))
    as (s' & Hrun' & Hc).
  rewrite Hrun in Hrun'. inversion Hrun'; subst. exact Hc.
Qed.

Lemma counted_queries kf ks w :
  counted kf ks w -> kf + ks <= Int64.max_int ->
  Failures w = sum_failure (buckets w) /\
  Successes w = sum_success (buckets w) /\
  Total w = sum_failure (buckets w) + sum_success (buckets w) /\
  0 <= sum_failure (buckets w) <= kf /\ 0 <= sum_success (buckets w) <= ks.
Proof.
  intros (Hn & Hnn & Hsf & Hss) Hk. pose proof (nonneg_sums _ Hnn) as [Hf Hs].
  rewrite Failures_sum, Successes_sum, Total_sum.
  rewrite !wrap_id; repeat split; int64_lia.
Qed.

(** ** ErrorRate *)

Lemma ErrorRate_fold bs : forall t f,
  fold_left (fun '(total, failures) b =>
               (Int64.add total (success b), Int64.add failures (failure b)))
            bs (t, f)
  = (fold_left (fun acc b => Int64.add acc (success b)) bs t,
     fold_left (fun acc b => Int64.add acc (failure b)) bs f).
Proof.
  induction bs as [|b bs IH]; intros t f; simpl; [reflexivity | apply IH].
Qed.

Lemma ErrorRate_queries w :
  ErrorRate w =
    if Total w =? 0 then float64_zero
    else float64_div (float64_of_int64 (Failures w)) (float64_of_int64 (Total w)).
Proof.
  unfold ErrorRate. rewrite ErrorRate_fold.
  fold (Successes w) (Failures w).
  replace (Int64.add (Successes w) (Failures w)) with (Total w); [reflexivity|].
  rewrite Total_add. unfold Int64.add. f_equal. lia.
Qed.

(** C10: in every reachable window state [Total()] equals [Failures() +
    Successes()], the sum being that of Go's [int64]; while fewer than
    [2^63] calls of [Fail] and [Success] have been made no counter has
    wrapped around and the sum is the sum of integers. *)
Theorem Total_Failures_Successes (ops : list op) (s : state) :
  reachable_by ops s ->
  Total (snd s) = Int64.add (Failures (snd s)) (Successes (snd s)) /\
  (count_ops is_Fail ops + count_ops is_Success ops <= Int64.max_int ->
   Total (snd s) = Failures (snd s) + Successes (snd s)).
Proof.
  intros Hreach. split; [apply Total_add|].
  intros Hlen. pose proof (reachable_counted ops s Hreach Hlen) as Hc.
  destruct (counted_queries _ _ _ Hc Hlen) as (-> & -> & -> & _). reflexivity.
Qed.

(** ** Recording within one bucket interval *)

Lemma Now_clock_Add cs c c' d :
  Now (clock_Add cs c' d) c = if Nat.eqb c c' then Now cs c + d else Now cs c.
Proof.
  unfold Now, clock_Add. destruct (Nat.eqb c c') eqn:E; [|reflexivity].
  apply Nat.eqb_eq in E. now subst.
Qed.

Lemma Fail_same cs w :
  0 < len w -> Sub (Now cs (clock w)) (lastAccess w) <= bucketTime w ->
  Fail cs w = Returns (set_buckets w
    (alter bucket_Fail (Z.to_nat (lastIdx w mod len w)) (buckets w))).
Proof.
  intros Hn He. unfold Fail. now rewrite getLatestBucket_same.
Qed.

Lemma Success_same cs w :
  0 < len w -> Sub (Now cs (clock w)) (lastAccess w) <= bucketTime w ->
  Success cs w = Returns (set_buckets w
    (alter bucket_Success (Z.to_nat (lastIdx w mod len w)) (buckets w))).
Proof.
  intros Hn He. unfold Success. now rewrite getLatestBucket_same.
Qed.

(** Along an execution that stays within the current bucket interval
    nothing rotates: the counters grow by the number of calls. *)
Lemma run_within ops : forall cs w,
  0 < len w -> nonneg (buckets w) ->
  count_ops is_Reset ops = 0 ->
  within_bucket (clock w) (lastAccess w) (bucketTime w) (Now cs (clock w)) ops = true ->
  sum_all (buckets w) + count_ops is_Fail ops + count_ops is_Success ops
    <= Int64.max_int ->
  exists cs' w',
    run (cs, w) ops = Returns (cs', w') /\
    nonneg (buckets w') /\
    sum_failure (buckets w') = sum_failure (buckets w) + count_ops is_Fail ops /\
    sum_success (buckets w') = sum_success (buckets w) + count_ops is_Success ops.
Proof.
  induction ops as [|o ops IH]; intros cs w Hn Hnn Hres Hin Hsum.
  - exists cs, w. simpl. repeat split; [assumption | lia | lia].
  - pose proof (count_ops_nonneg is_Reset ops) as Hr0.
    pose proof (count_ops_nonneg is_Fail ops) as Hf0.
    pose proof (count_ops_nonneg is_Success ops) as Hs0.
    pose proof (Z.mod_pos_bound (lastIdx w) (len w) Hn) as Hlt.
    assert (Hb : (Z.to_nat (lastIdx w mod len w) < length (buckets w))%nat)
      by (unfold len in *; lia).
    destruct o; cbn [count_ops is_Reset is_Fail is_Success within_bucket] in *.
    + apply andb_true_iff in Hin as [He Hin]. apply Z.leb_le in He.
      destruct (record_Fail _ _ Hb Hnn) as (Hnn1 & Hf1 & Hs1);
        [unfold sum_all in *; lia|].
      edestruct (IH cs (set_buckets w
          (alter bucket_Fail (Z.to_nat (lastIdx w mod len w)) (buckets w))))
        as (cs' & w' & Hrun & Hnn' & Hf' & Hs').
      * unfold len in *. simpl. now rewrite length_alter.
      * exact Hnn1.
      * lia.
      * exact Hin.
      * unfold sum_all in *. simpl. rewrite Hf1, Hs1. lia.
      * exists cs', w'. cbn [run step]. rewrite Fail_same by assumption.
        simpl bind. split; [exact Hrun|]. split; [exact Hnn'|].
        simpl in Hf', Hs'. rewrite Hf', Hs', Hf1, Hs1. lia.
    + apply andb_true_iff in Hin as [He Hin]. apply Z.leb_le in He.
      destruct (record_Success _ _ Hb Hnn) as (Hnn1 & Hf1 & Hs1);
        [unfold sum_all in *; lia|].
      edestruct (IH cs (set_buckets w
          (alter bucket_Success (Z.to_nat (lastIdx w mod len w)) (buckets w))))
        as (cs' & w' & Hrun & Hnn' & Hf' & Hs').
      * unfold len in *. simpl. now rewrite length_alter.
      * exact Hnn1.
      * lia.
      * exact Hin.
      * unfold sum_all in *. simpl. rewrite Hf1, Hs1. lia.
      * exists cs', w'. cbn [run step]. rewrite Success_same by assumption.
        simpl bind. split; [exact Hrun|]. split; [exact Hnn'|].
        simpl in Hf', Hs'. rewrite Hf', Hs', Hf1, Hs1. lia.
    + lia.
    + destruct (IH (clock_Add cs c d) w Hn Hnn ltac:(lia))
        as (cs' & w' & Hrun & Hrest).
      * rewrite Now_clock_Add. exact Hin.
      * lia.
      * exists cs', w'. cbn [run step]. simpl bind. split; [exact Hrun|].
        destruct Hrest as (? & ? & ?). repeat split; [assumption | lia | lia].
Qed.

(** C4: [N] calls of [Fail] and [M] calls of [Success] on a fresh window,
    in any order and with any clock movements in between that keep every
    call within the first bucket interval, leave [Failures() = N],
    [Successes() = M], [Total() = N + M] and [ErrorRate()] the [float64]
    quotient of [N] and [N + M], or 0.0 when nothing was recorded.  The
    counts are those an [int64] holds: [N + M < 2^63]. *)
Theorem counts_within_one_bucket
    (windowTime : Duration) (windowBuckets : Z) (cs : clocks) (c : Clock)
    (w0 : window) (ops : list op) :
  let N := count_ops is_Fail ops in
  let M := count_ops is_Success ops in
  newWindow windowTime windowBuckets cs c = Returns w0 ->
  count_ops is_Reset ops = 0 ->
  within_bucket c (Now cs c) (bucketTime w0) (Now cs c) ops = true ->
  N + M <= Int64.max_int ->
  exists cs' w,
    run (cs, w0) ops = Returns (cs', w) /\
    Failures w = N /\ Successes w = M /\ Total w = N + M /\
    ErrorRate w =
      if N + M =? 0 then float64_zero
      else float64_div (float64_of_int64 N) (float64_of_int64 (N + M)).
Proof.
  intros N M Hnew Hres Hin Hsum.
  pose proof (newWindow_counted _ _ _ _ _ Hnew) as (Hn & Hnn & Hzf & Hzs).
  pose proof (nonneg_sums _ Hnn) as [Hf0 Hs0].
  apply newWindow_returns in Hnew as [Hpos Hw].
  assert (Hc : clock w0 = c) by (subst w0; reflexivity).
  assert (Hla : lastAccess w0 = Now cs c) by (subst w0; reflexivity).
  destruct (run_within ops cs w0 Hn Hnn Hres) as (cs' & w & Hrun & Hnn' & Hf & Hs).
  { rewrite Hc, Hla. exact Hin. }
  { fold N M. unfold sum_all in *. lia. }
  fold N in Hf. fold M in Hs.
  pose proof (count_ops_nonneg is_Fail ops) as HN.
  pose proof (count_ops_nonneg is_Success ops) as HM. fold N in HN. fold M in HM.
  assert (HF : Failures w = N).
  { rewrite Failures_sum, Hf. rewrite wrap_id; [lia|].
    int64_lia. }
  assert (HS : Successes w = M).
  { rewrite Successes_sum, Hs. rewrite wrap_id; [lia|].
    int64_lia. }
  assert (HT : Total w = N + M).
  { rewrite Total_add, HF, HS. apply wrap_id.
    int64_lia. }
  exists cs', w. rewrite ErrorRate_queries, HT, HF. auto.
Qed.

(** ** The sliding scenario of the tests *)

Lemma Sub_diag t : Sub t t = 0.
Proof. unfold Sub, Int64.min_int, Int64.max_int. lia. Qed.

Lemma Sub_add t d : Int64.in_range d -> Sub (t + d) t = d.
Proof. unfold Sub, Int64.in_range, Int64.min_int, Int64.max_int. lia. Qed.

(** C6: a 10ms window of 2 buckets of 5ms each; one failure, the clock
    moved 6ms forward, a second failure: each of the 2 buckets holds one
    failure, so exactly 2 buckets report a nonzero failure count. *)
Theorem slide_into_second_bucket (cs : clocks) (c : Clock) :
  exists w0 cs' w,
    newWindow (10 * Millisecond) 2 cs c = Returns w0 /\
    bucketTime w0 = 5 * Millisecond /\
    run (cs, w0) [OpFail; OpAdd c (6 * Millisecond); OpFail] = Returns (cs', w) /\
    buckets w = [mkBucket 1 0; mkBucket 1 0] /\
    failing_buckets w = 2%nat.
Proof.
  set (w1 := mkWindow [mkBucket 1 0; zero_bucket] 5000000 (Now cs c) 0 c).
  set (cs2 := clock_Add cs c (6 * Millisecond)).
  set (w2 := mkWindow [mkBucket 1 0; mkBucket 1 0] 5000000 (Now cs2 c) 1 c).
  assert (H1 : Fail cs (mkWindow [zero_bucket; zero_bucket] 5000000 (Now cs c) 0 c)
               = Returns w1).
  { rewrite Fail_same; [reflexivity | reflexivity |].
    simpl. rewrite Sub_diag. discriminate. }
  assert (H2 : Fail cs2 w1 = Returns w2).
  { unfold Fail, getLatestBucket. simpl.
    replace (Sub (Now cs2 c) (Now cs c)) with 6000000.
    - reflexivity.
    - unfold cs2. rewrite Now_clock_Add, Nat.eqb_refl.
      symmetry. apply Sub_add. split; discriminate. }
  exists (mkWindow [zero_bucket; zero_bucket] 5000000 (Now cs c) 0 c), cs2, w2.
  split; [reflexivity|]. split; [reflexivity|].
  split; [|split; reflexivity].
  change (bind (bind (Fail cs (mkWindow [zero_bucket; zero_bucket] 5000000
                                          (Now cs c) 0 c))
                     (fun w' => Returns (cs, w')))
               (fun s => run s [OpAdd c (6 * Millisecond); OpFail])
          = Returns (cs2, w2)).
  rewrite H1. cbn [bind run step]. fold cs2. rewrite H2. reflexivity.
Qed.

(** ** Expiry of the whole window *)

(** The queries do not rotate: a window left alone keeps its counts
    however far the clock moves.  A 10ms window, one failure, the clock
    moved 15ms forward and nothing recorded since: [Failures()] is still
    1. *)
Lemma stale_counts_after_expiry :
  exists w0 s,
    newWindow (10 * Millisecond) 2 (fun _ => 0) 0%nat = Returns w0 /\
    run (fun _ => 0, w0) [OpFail; OpAdd 0%nat (15 * Millisecond)] = Returns s /\
    10 * Millisecond < Sub (Now (fst s) (clock (snd s))) (lastAccess (snd s)) /\
    Failures (snd s) = 1.
Proof.
  eexists. eexists. split; [reflexivity|]. split; [reflexivity|].
  split; reflexivity.
Qed.

Lemma rotate_full_window cs w :
  0 < len w -> 0 < bucketTime w ->
  0 <= lastIdx w -> lastIdx w + len w < 2 ^ 64 ->
  len w * bucketTime w <= Sub (Now cs (clock w)) (lastAccess w) ->
  bucketTime w < Sub (Now cs (clock w)) (lastAccess w) ->
  exists w' b,
    getLatestBucket cs w = Returns (w', b) /\
    (b < length (buckets w'))%nat /\
    buckets w' = replicate (length (buckets w)) zero_bucket /\
    lastAccess w' = Now cs (clock w) /\
    bucketTime w' = bucketTime w /\ clock w' = clock w.
Proof.
  intros Hn Hbt Hlo Hhi Hfull He.
  destruct (getLatestBucket_rotates cs w Hn Hbt He)
    as (w' & b' & Hget & Hadv & Hf1 & Hf3 & Hf4).
  destruct (getLatestBucket_returns cs w Hn) as (w1 & b1 & Hget1 & Hb1 & _).
  rewrite Hget in Hget1. inversion Hget1; subst w1 b1. simpl in Hb1.
  exists (set_lastAccess w' (Now cs (clock w))), b'.
  split; [exact Hget|]. split; [exact Hb1|]. simpl.
  split; [|auto].
  apply (advanced_full w w' b' Hlo Hhi Hf4).
  replace (len w)
    with (Z.min (len w) (Sub (Now cs (clock w)) (lastAccess w) / bucketTime w))
    at 1; [exact Hadv|].
  assert (len w <= Sub (Now cs (clock w)) (lastAccess w) / bucketTime w)
    by (apply Z.div_le_lower_bound; lia).
  lia.
Qed.

(** C5, as the code has it: once the clock has moved beyond the whole
    window, the next [Fail] or [Success] clears every count recorded
    before.  Whatever is done afterwards, [Failures()] and [Successes()]
    never exceed the numbers of failures and successes recorded since the
    advance; and while the calls stay within the bucket interval that
    first call opens, [Failures()], [Successes()] and [Total()] are
    exactly those numbers.  Until that first call the queries still return
    the old counts. *)
Theorem expiry_after_full_window
    (cs : clocks) (w : window) (o : op) (ops : list op) :
  let now := Now cs (clock w) in
  let N := count_ops is_Fail (o :: ops) in
  let M := count_ops is_Success (o :: ops) in
  0 < len w -> 0 < bucketTime w ->
  0 <= lastIdx w -> lastIdx w + len w < 2 ^ 64 ->
  len w * bucketTime w < Sub now (lastAccess w) ->
  o = OpFail \/ o = OpSuccess ->
  N + M <= Int64.max_int ->
  exists cs' w',
    run (cs, w) (o :: ops) = Returns (cs', w') /\
    0 <= Failures w' <= N /\ 0 <= Successes w' <= M /\
    (count_ops is_Reset ops = 0 ->
     within_bucket (clock w) now (bucketTime w) now ops = true ->
     Failures w' = N /\ Successes w' = M /\ Total w' = N + M).
Proof.
  intros now N M Hn Hbt Hlo Hhi Hfull Ho Hsum. subst now.
  destruct (rotate_full_window cs w Hn Hbt Hlo Hhi) as
    (w1 & b & Hget & Hb & Hbs & Hla & Hbt1 & Hc1); [lia | nia |].
  pose proof (count_ops_nonneg is_Fail ops) as HN.
  pose proof (count_ops_nonneg is_Success ops) as HM.
  assert (Hnn1 : nonneg (buckets w1)) by (rewrite Hbs; apply nonneg_replicate).
  assert (Hz1 : sum_failure (buckets w1) = 0 /\ sum_success (buckets w1) = 0).
  { rewrite Hbs, sum_failure_replicate, sum_success_replicate. auto. }
  assert (Hlen1 : len w1 = len w).
  { unfold len. rewrite Hbs, length_replicate. reflexivity. }
  assert (Hone : exists w2,
    step (cs, w) o = Returns (cs, w2) /\
    0 < len w2 /\ nonneg (buckets w2) /\
    sum_failure (buckets w2) = count_ops is_Fail [o] /\
    sum_success (buckets w2) = count_ops is_Success [o] /\
    lastAccess w2 = Now cs (clock w) /\ bucketTime w2 = bucketTime w /\
    clock w2 = clock w).
  { destruct Ho as [-> | ->]; cbn [step count_ops is_Fail is_Success].
    - unfold Fail. rewrite Hget. cbn [bind]. eexists. split; [reflexivity|].
      destruct (record_Fail b (buckets w1) Hb Hnn1) as (? & Hf & Hs).
      { unfold sum_all, Int64.max_int. lia. }
      unfold len in *. simpl. rewrite length_alter, Hf, Hs.
      repeat split; try assumption; lia.
    - unfold Success. rewrite Hget. cbn [bind]. eexists. split; [reflexivity|].
      destruct (record_Success b (buckets w1) Hb Hnn1) as (? & Hf & Hs).
      { unfold sum_all, Int64.max_int. lia. }
      unfold len in *. simpl. rewrite length_alter, Hf, Hs.
      repeat split; try assumption; lia. }
  destruct Hone as (w2 & Hstep & Hn2 & Hnn2 & Hf2 & Hs2 & Hla2 & Hbt2 & Hc2).
  assert (HNM : N = count_ops is_Fail [o] + count_ops is_Fail ops /\
                M = count_ops is_Success [o] + count_ops is_Success ops).
  { unfold N, M. cbn [count_ops]. lia. }
  destruct HNM as [HNe HMe].
  pose proof (count_ops_nonneg is_Fail [o]) as HN1.
  pose proof (count_ops_nonneg is_Success [o]) as HM1.
  assert (Hc2' : counted (count_ops is_Fail [o]) (count_ops is_Success [o]) w2).
  { unfold counted. rewrite Hf2, Hs2. repeat split; [assumption.. | lia | lia]. }
  destruct (run_counted ops cs w2 _ _ Hc2' HN1 HM1) as ([cs' w'] & Hrun & Hc');
    [lia|].
  rewrite <- HNe, <- HMe in Hc'. cbn [snd] in Hc'.
  destruct (counted_queries _ _ _ Hc' Hsum) as (HF & HS & HT & Hf0 & Hs0).
  exists cs', w'. split.
  { cbn [run]. rewrite Hstep. exact Hrun. }
  split; [rewrite HF; exact Hf0|]. split; [rewrite HS; exact Hs0|].
  intros Hres Hin.
  destruct (run_within ops cs w2 Hn2 Hnn2 Hres) as (cs'' & w'' & Hrun' & _ & Hf & Hs).
  { rewrite Hc2, Hla2, Hbt2. exact Hin. }
  { unfold sum_all. rewrite Hf2, Hs2. lia. }
  rewrite Hrun in Hrun'. inversion Hrun'; subst cs'' w''.
  rewrite Hf2 in Hf. rewrite Hs2 in Hs. rewrite <- HNe in Hf. rewrite <- HMe in Hs.
  rewrite HT, HF, HS, Hf, Hs. auto.
Qed.

(** ** Construction *)

(** [newWindow] has no error result and no check of its arguments: with a
    bucket count of 0 the failure a caller meets is the runtime's division
    by zero, not [InvalidConfiguration]. *)
Lemma newWindow_zero_buckets_panics :
  newWindow (10 * Millisecond) 0 (fun _ => 0) 0%nat = Panics IntegerDivideByZero /\
  failure_of (newWindow (10 * Millisecond) 0 (fun _ => 0) 0%nat)
    <> Some InvalidConfiguration.
Proof. split; [reflexivity | discriminate]. Qed.

(** C2, as the code has it: a non-positive bucket count makes [newWindow]
    panic during construction ([makeslice: len out of range] for a
    negative count, [integer divide by zero] for 0), so no window with an
    empty ring is ever returned; and a window that [newWindow] did return
    has at least one bucket and never faults: whatever sequence of [Fail],
    [Success], [Reset] and clock movements is run on it, against whatever
    readings of the clocks, every call returns, the ring keeps its
    buckets, and a further [Fail] or [Success] returns as well. *)
Theorem newWindow_rejects_nonpositive
    (windowTime : Duration) (windowBuckets : Z) (cs : clocks) (c : Clock) :
  (windowBuckets <= 0 ->
   newWindow windowTime windowBuckets cs c
   = Panics (if windowBuckets <? 0 then MakesliceLenOutOfRange
             else IntegerDivideByZero)) /\
  (forall w, newWindow windowTime windowBuckets cs c = Returns w ->
     0 < windowBuckets /\ len w = windowBuckets /\
     forall cs0 ops, exists cs' w',
       run (cs0, w) ops = Returns (cs', w') /\
       len w' = windowBuckets /\
       (exists w'', Fail cs' w' = Returns w'') /\
       (exists w'', Success cs' w' = Returns w'')).
Proof.
  split.
  - intros Hn. unfold newWindow, make_buckets, int64_div.
    destruct (windowBuckets <? 0) eqn:Hneg; [reflexivity|].
    apply Z.ltb_ge in Hneg. assert (windowBuckets = 0) as -> by lia.
    reflexivity.
  - intros w Hnew. pose proof (newWindow_returns _ _ _ _ _ Hnew) as [Hn Hw].
    assert (Hlen : len w = windowBuckets).
    { subst w. unfold len. simpl. rewrite length_replicate. lia. }
    split; [exact Hn|]. split; [exact Hlen|].
    intros cs0 ops.
    destruct (run_returns ops cs0 w ltac:(lia)) as (cs' & w' & Hrun & Hlen').
    exists cs', w'. split; [exact Hrun|]. split; [lia|].
    destruct (getLatestBucket_returns cs' w' ltac:(lia)) as (w1 & b & Hget & _).
    unfold Fail, Success. rewrite Hget. simpl. split; eexists; reflexivity.
Qed.

(** ** The saturating bucket *)

Section Saturation.

Import Limited.

Lemma failures_in_nonneg es : 0 <= failures_in es.
Proof. induction es as [|[] es IH]; simpl; lia. Qed.

Lemma record_all_counts cap es : forall b,
  0 < cap <= Int64.max_int ->
  0 <= failure b <= cap -> Int64.in_range (limited b) ->
  failure (record_all cap b es) = Z.min (failure b + failures_in es) cap /\
  limited (record_all cap b es)
  = Int64.wrap (limited b + Z.max 0 (failure b + failures_in es - cap)).
Proof.
  induction es as [|e es IH]; intros b Hcap Hf Hl.
  - simpl. rewrite Z.add_0_r. split; [lia|].
    replace (Z.max 0 (failure b - cap)) with 0 by lia.
    rewrite Z.add_0_r. symmetry. now apply wrap_id.
  - pose proof (failures_in_nonneg es) as Hk.
    unfold record_all in *. cbn [fold_left]. destruct e; cbn [record failures_in].
    + unfold FailLimited.
      destruct (cap =? 0) eqn:H0; [apply Z.eqb_eq in H0; lia|].
      destruct (failure b <? cap) eqn:Hlt.
      * apply Z.ltb_lt in Hlt.
        assert (Hadd : Int64.add (failure b) 1 = failure b + 1).
        { apply wrap_id.
          int64_lia. }
        rewrite Hadd.
        destruct (IH {| failure := failure b + 1; success := success b;
                        limited := limited b |} Hcap) as [IHf IHl];
          [simpl; lia | exact Hl |].
        simpl in IHf, IHl. rewrite IHf, IHl. split; [f_equal; lia|].
        f_equal. lia.
      * apply Z.ltb_ge in Hlt. assert (Hfc : failure b = cap) by lia.
        destruct (IH {| failure := failure b; success := success b;
                        limited := Int64.add (limited b) 1 |} Hcap) as [IHf IHl];
          [simpl; lia | apply wrap_range |].
        simpl in IHf, IHl. rewrite IHf, IHl. split; [lia|].
        unfold Int64.add. rewrite wrap_add_l. f_equal. lia.
    + destruct (IH (Success b) Hcap) as [IHf IHl]; [exact Hf | exact Hl |].
      simpl in IHf, IHl. rewrite IHf, IHl. auto.
Qed.

(** C1 (on the bucket modelled from the specification): with a cap
    [C > 0], [FailLimited] increments the failure counter while it is
    below [C] and the limited-failure counter otherwise; so a bucket
    reset at the start of its interval that then receives [k] failures
    (and any successes) holds [min(k, C)] failures, exactly [C] once
    [k > C], the excess [k - C] being counted as limited failures; with
    a cap of 0, [FailLimited] is [Fail], the unbounded increment that
    [bucket.Fail] of [window.go] performs. *)
Theorem FailLimited_saturates (cap : Z) :
  0 < cap <= Int64.max_int ->
  (forall b, failure b < cap ->
     FailLimited cap b = {| failure := Int64.add (failure b) 1;
                            success := success b;
                            limited := limited b |}) /\
  (forall b, cap <= failure b ->
     FailLimited cap b = {| failure := failure b;
                            success := success b;
                            limited := Int64.add (limited b) 1 |}) /\
  (forall b es,
     let k := failures_in es in
     let b' := record_all cap (Reset b) es in
     failure b' = Z.min k cap /\
     (cap < k -> failure b' = cap /\ limited b' = Int64.wrap (k - cap))) /\
  (forall b, FailLimited 0 b = Fail b /\
             forget (Fail b) = bucket_Fail (forget b)).
Proof.
  intros Hcap. split; [|split; [|split]].
  - intros b Hb. unfold FailLimited.
    destruct (cap =? 0) eqn:H0; [apply Z.eqb_eq in H0; lia|].
    destruct (failure b <? cap) eqn:Hlt; [reflexivity|].
    apply Z.ltb_ge in Hlt. lia.
  - intros b Hb. unfold FailLimited.
    destruct (cap =? 0) eqn:H0; [apply Z.eqb_eq in H0; lia|].
    destruct (failure b <? cap) eqn:Hlt; [|reflexivity].
    apply Z.ltb_lt in Hlt. lia.
  - intros b es k b'.
    destruct (record_all_counts cap es (Reset b) Hcap) as [Hf Hl].
    + simpl. lia.
    + simpl. int64_lia.
    + simpl in Hf, Hl. fold k in Hf, Hl. fold b' in Hf, Hl.
      split; [exact Hf|]. intros Hk. split; [lia|].
      rewrite Hl. f_equal. lia.
  - intros b. split; reflexivity.
Qed.

(** On the bucket modelled from the specification a reset leaves the
    limited-failure counter at 0, whatever the cap. *)
Remark Reset_limited b : limited (Success (Reset b)) = 0.
Proof. reflexivity. Qed.

End Saturation.

(** ** float64 arithmetic: rounding of the quotient of two counts *)

Lemma digits2_pos_size p : digits2_pos p = Pos.size p.
Proof. induction p as [p IH|p IH|]; simpl; congruence. Qed.

Lemma digits2_pos_bounds p :
  2 ^ (Zpos (digits2_pos p) - 1) <= Zpos p < 2 ^ Zpos (digits2_pos p).
Proof.
  rewrite digits2_pos_size. split.
  - pose proof (Pos.size_le p) as H.
    assert (H' : (Zpos (2 ^ Pos.size p) <= Zpos p~0)) by exact H.
    rewrite Pos2Z.inj_pow in H'.
    replace (Zpos (Pos.size p)) with (Zpos (Pos.size p) - 1 + 1) in H' by lia.
    rewrite Z.pow_add_r in H' by lia. lia.
  - pose proof (Pos.size_gt p) as H.
    assert (H' : (Zpos p < Zpos (2 ^ Pos.size p))) by exact H.
    now rewrite Pos2Z.inj_pow in H'.
Qed.

Lemma digits2_pos_unique p d :
  0 < d -> 2 ^ (d - 1) <= Zpos p < 2 ^ d -> Zpos (digits2_pos p) = d.
Proof.
  intros Hd [Hlo Hhi]. pose proof (digits2_pos_bounds p) as [Hlo' Hhi'].
  set (k := Zpos (digits2_pos p)) in *. assert (0 < k) by (unfold k; lia).
  destruct (Z.lt_trichotomy k d) as [Hlt|[Heq|Hgt]]; [|exact Heq|].
  - assert (2 ^ k <= 2 ^ (d - 1)) by (apply Z.pow_le_mono_r; lia). lia.
  - assert (2 ^ d <= 2 ^ (k - 1)) by (apply Z.pow_le_mono_r; lia). lia.
Qed.

Lemma shr_1_nonneg m r s :
  0 <= m ->
  shr_1 (Build_shr_record m r s) = Build_shr_record (m / 2) (Z.odd m) (r || s).
Proof.
  intros Hm. rewrite <- Z.div2_div.
  destruct m as [|[p|p|]|]; try lia; reflexivity.
Qed.

Lemma iter_pos_nat {A} (f : A -> A) p : forall x,
  SpecFloat.iter_pos f p x = Nat.iter (Pos.to_nat p) f x.
Proof.
  induction p as [p IH|p IH|]; intros x; cbn [SpecFloat.iter_pos].
  - rewrite !IH, Pos2Nat.inj_xI.
    replace (S (2 * Pos.to_nat p))
      with (Pos.to_nat p + (Pos.to_nat p + 1))%nat by lia.
    rewrite !Nat.iter_add. reflexivity.
  - rewrite !IH, Pos2Nat.inj_xO.
    replace (2 * Pos.to_nat p)%nat with (Pos.to_nat p + Pos.to_nat p)%nat by lia.
    rewrite Nat.iter_add. reflexivity.
  - reflexivity.
Qed.

(** [k + 1] one-bit shifts of a non-negative mantissa with nothing shifted
    out before: the quotient, the last bit shifted out, and whether any
    earlier bit was set. *)
Lemma shr_iter m (k : nat) :
  0 <= m ->
  Nat.iter (S k) shr_1 (Build_shr_record m false false)
  = Build_shr_record (m / 2 ^ Z.of_nat (S k))
                     (Z.odd (m / 2 ^ Z.of_nat k))
                     (negb (m mod 2 ^ Z.of_nat k =? 0)).
Proof.
  intros Hm. induction k as [|k IH].
  - unfold Nat.iter. cbn [nat_rect]. rewrite shr_1_nonneg by exact Hm.
    change (2 ^ Z.of_nat 1) with 2. change (2 ^ Z.of_nat 0) with 1.
    rewrite Z.div_1_r, Z.mod_1_r. reflexivity.
  - rewrite Nat.iter_succ, IH. rewrite shr_1_nonneg
      by (apply Z.div_pos; [lia | apply Z.pow_pos_nonneg; lia]).
    assert (Hp : 0 < 2 ^ Z.of_nat k) by (apply Z.pow_pos_nonneg; lia).
    assert (E1 : 2 ^ Z.of_nat (S k) = 2 ^ Z.of_nat k * 2)
      by (rewrite Nat2Z.inj_succ, Z.pow_succ_r; lia).
    assert (E2 : 2 ^ Z.of_nat (S (S k)) = 2 ^ Z.of_nat (S k) * 2)
      by (rewrite (Nat2Z.inj_succ (S k)), Z.pow_succ_r; lia).
    f_equal.
    + rewrite Z.div_div by lia. now rewrite E2.
    + rewrite E1, Z.rem_mul_r by lia. rewrite Zmod_odd.
      pose proof (Z.mod_pos_bound m (2 ^ Z.of_nat k) Hp).
      destruct (Z.odd (m / 2 ^ Z.of_nat k)); simpl.
      * symmetry. apply negb_true_iff, Z.eqb_neq. lia.
      * f_equal. f_equal. lia.
Qed.

Lemma Zdigits2_unique q d :
  0 < d -> 2 ^ (d - 1) <= q < 2 ^ d -> Zdigits2 q = d.
Proof.
  intros Hd Hq.
  assert (0 < 2 ^ (d - 1)) by (apply Z.pow_pos_nonneg; lia).
  destruct q as [|p|p]; try lia. simpl. now apply digits2_pos_unique.
Qed.

Lemma shr_exact m e n :
  0 <= m -> 0 < n ->
  shr (shr_record_of_loc m loc_Exact) e n
  = (Build_shr_record (m / 2 ^ n) (Z.odd (m / 2 ^ (n - 1)))
                      (negb (m mod 2 ^ (n - 1) =? 0)),
     e + n).
Proof.
  intros Hm Hn. destruct n as [|p|p]; try lia.
  unfold shr. rewrite iter_pos_nat.
  destruct (Pos2Nat.is_succ p) as [k Hk]. rewrite Hk.
  cbn [shr_record_of_loc]. rewrite shr_iter by exact Hm.
  assert (Hp : Z.of_nat (S k) = Zpos p) by (rewrite <- Hk; apply positive_nat_Z).
  assert (Hk' : Z.of_nat k = Zpos p - 1) by lia.
  now rewrite Hp, Hk'.
Qed.

Lemma round_nearest_even_up m n :
  let R := Build_shr_record (m / 2 ^ n) (Z.odd (m / 2 ^ (n - 1)))
                            (negb (m mod 2 ^ (n - 1) =? 0)) in
  round_nearest_even (shr_m R) (loc_of_shr_record R)
  = m / 2 ^ n + (if up m n then 1 else 0).
Proof.
  unfold up. cbn [shr_m loc_of_shr_record].
  rewrite <- (Z.negb_even (m / 2 ^ n)).
  destruct (Z.odd (m / 2 ^ (n - 1))), (negb (m mod 2 ^ (n - 1) =? 0));
    cbn [round_nearest_even andb orb]; try lia.
  destruct (Z.even (m / 2 ^ n)); simpl; lia.
Qed.

Lemma round_nearest_even_bounds m l :
  m <= round_nearest_even m l <= m + 1.
Proof.
  destruct l as [|[]]; simpl; try lia. destruct (Z.even m); lia.
Qed.

Lemma shr_record_of_loc_m m l : shr_m (shr_record_of_loc m l) = m.
Proof. destruct l as [|[]]; reflexivity. Qed.

Lemma loc_of_shr_record_of_loc m l :
  loc_of_shr_record (shr_record_of_loc m l) = l.
Proof. destruct l as [|[]]; reflexivity. Qed.

(** No shift is needed for a mantissa of 53 bits. *)
Lemma shr_fexp_53 q e l :
  2 ^ 52 <= q < 2 ^ 53 -> -1074 <= e ->
  shr_fexp prec emax q e l = (shr_record_of_loc q l, e).
Proof.
  intros Hq He. unfold shr_fexp.
  rewrite (Zdigits2_unique q 53) by lia.
  unfold fexp, emin, prec, emax.
  replace (Z.max (53 + e - 53) (3 - 1024 - 53) - e) with 0 by lia.
  reflexivity.
Qed.

(** A mantissa of 54 bits is shifted by one bit. *)
Lemma shr_fexp_54 q e l :
  2 ^ 53 <= q < 2 ^ 54 -> -1075 <= e ->
  shr_fexp prec emax q e l = (shr_1 (shr_record_of_loc q l), e + 1).
Proof.
  intros Hq He. unfold shr_fexp.
  rewrite (Zdigits2_unique q 54) by lia.
  unfold fexp, emin, prec, emax.
  replace (Z.max (54 + e - 53) (3 - 1024 - 53) - e) with 1 by lia.
  reflexivity.
Qed.

Lemma binary_round_aux_finish sx mx ex lx :
  binary_round_aux prec emax sx mx ex lx
  = let '(mrs, e) := shr_fexp prec emax mx ex lx in
    finish sx (round_nearest_even (shr_m mrs) (loc_of_shr_record mrs)) e.
Proof.
  unfold binary_round_aux, finish.
  destruct (shr_fexp prec emax mx ex lx) as [mrs e]. reflexivity.
Qed.

Lemma finish_normal sx m e :
  2 ^ 52 <= m <= 2 ^ 53 -> -1074 <= e <= 970 ->
  finish sx m e =
    if m =? 2 ^ 53 then S754_finite sx (2 ^ 52) (e + 1)
    else S754_finite sx (Z.to_pos m) e.
Proof.
  intros Hm He. unfold finish.
  destruct (m =? 2 ^ 53) eqn:Htop.
  - apply Z.eqb_eq in Htop. subst m.
    rewrite shr_fexp_54 by lia. cbn [shr_record_of_loc shr_1 shr_m].
    unfold emax, prec.
    destruct (e + 1 <=? 1024 - 53) eqn:Hle; [reflexivity|].
    apply Z.leb_gt in Hle. lia.
  - apply Z.eqb_neq in Htop. rewrite shr_fexp_53 by lia.
    rewrite shr_record_of_loc_m.
    destruct m as [|p|p]; try lia. unfold emax, prec.
    destruct (e <=? 1024 - 53) eqn:Hle; [reflexivity|].
    apply Z.leb_gt in Hle. lia.
Qed.

Lemma le_one_finite m e :
  e < -52 \/ (e = -52 /\ m = (2 ^ 52)%positive) ->
  float64_leb float64_zero (S754_finite false m e) = true /\
  float64_leb (S754_finite false m e) float64_one = true.
Proof.
  intros H. split; [reflexivity|].
  unfold float64_leb, SFleb, float64_one, SFcompare.
  destruct H as [H|[-> ->]].
  - apply Z.compare_lt_iff in H. rewrite H. reflexivity.
  - reflexivity.
Qed.

Lemma finish_le_one m e :
  2 ^ 52 <= m <= 2 ^ 53 -> -1074 <= e <= -53 ->
  float64_leb float64_zero (finish false m e) = true /\
  float64_leb (finish false m e) float64_one = true.
Proof.
  intros Hm He. rewrite finish_normal by lia.
  destruct (m =? 2 ^ 53); apply le_one_finite; lia.
Qed.

Lemma SFdiv_core_53 ma ea mt et :
  2 ^ 52 <= Zpos ma < 2 ^ 53 -> 2 ^ 52 <= Zpos mt < 2 ^ 53 ->
  -1000 <= ea - et ->
  SFdiv_core_binary prec emax (Zpos ma) ea (Zpos mt) et
  = (Zpos ma * 2 ^ 53 / Zpos mt, ea - et - 53,
     new_location (Zpos mt) ((Zpos ma * 2 ^ 53) mod Zpos mt)).
Proof.
  intros Ha Ht He. unfold SFdiv_core_binary.
  rewrite (Zdigits2_unique (Zpos ma) 53), (Zdigits2_unique (Zpos mt) 53) by lia.
  unfold fexp, emin, prec, emax.
  replace (Z.min (Z.max (53 + ea - (53 + et) - 53) (3 - 1024 - 53)) (ea - et))
    with (ea - et - 53) by lia.
  replace (ea - et - (ea - et - 53)) with 53 by lia.
  cbv iota. rewrite Z.shiftl_mul_pow2 by lia.
  unfold Z.div, Z.modulo.
  destruct (Z.div_eucl (Zpos ma * 2 ^ 53) (Zpos mt)) as [q r]. reflexivity.
Qed.

Lemma new_location_zero n : new_location n 0 = loc_Exact.
Proof.
  unfold new_location, new_location_even, new_location_odd.
  destruct (Z.even n); reflexivity.
Qed.

(** The quotient of two normal floats, the first no larger than the
    second, lies between 0 and 1. *)
Lemma float64_div_le_one ma ea mt et :
  2 ^ 52 <= Zpos ma < 2 ^ 53 -> 2 ^ 52 <= Zpos mt < 2 ^ 53 ->
  -52 <= ea <= 11 -> -52 <= et <= 11 ->
  ea < et \/ (ea = et /\ Zpos ma <= Zpos mt) ->
  let r := float64_div (S754_finite false ma ea) (S754_finite false mt et) in
  float64_leb float64_zero r = true /\ float64_leb r float64_one = true.
Proof.
  intros Ha Ht Hea Het Hle r. subst r.
  unfold float64_div. cbn [SFdiv xorb].
  rewrite SFdiv_core_53 by lia.
  set (A := Zpos ma) in *. set (T := Zpos mt) in *.
  set (q := A * 2 ^ 53 / T).
  assert (Hq : 2 ^ 52 <= q < 2 ^ 54).
  { unfold q. split.
    - apply Z.div_le_lower_bound; lia.
    - apply Z.div_lt_upper_bound; lia. }
  rewrite binary_round_aux_finish.
  destruct (Z.lt_ge_cases q (2 ^ 53)) as [Hq53|Hq54].
  - (* a quotient of 53 bits *)
    rewrite shr_fexp_53 by lia.
    rewrite shr_record_of_loc_m, loc_of_shr_record_of_loc.
    pose proof (round_nearest_even_bounds q
      (new_location T ((A * 2 ^ 53) mod T))) as Hr.
    apply finish_le_one; lia.
  - (* a quotient of 54 bits *)
    rewrite shr_fexp_54 by lia.
    destruct Hle as [Hlt|[Heq HAT]].
    + assert (Hm : exists r s,
        shr_1 (shr_record_of_loc q (new_location T ((A * 2 ^ 53) mod T)))
        = Build_shr_record (q / 2) r s).
      { destruct (new_location T ((A * 2 ^ 53) mod T)) as [|[]];
          cbn [shr_record_of_loc]; rewrite shr_1_nonneg by lia; eauto. }
      destruct Hm as (rb & sb & ->). cbn [shr_m].
      pose proof (round_nearest_even_bounds (q / 2)
        (loc_of_shr_record (Build_shr_record (q / 2) rb sb))) as Hr.
      assert (Hq2 : 2 ^ 52 <= q / 2 < 2 ^ 53).
      { split; [apply Z.div_le_lower_bound | apply Z.div_lt_upper_bound]; lia. }
      rewrite finish_normal by lia.
      destruct (_ =? 2 ^ 53); apply le_one_finite; lia.
    + (* equal exponents: the quotient is exactly 1 *)
      assert (HqT : q = 2 ^ 53).
      { assert (q <= 2 ^ 53) by (apply Z.div_le_upper_bound; nia). lia. }
      assert (HA : A = T).
      { assert (T * q <= A * 2 ^ 53) by (apply Z.mul_div_le; lia). nia. }
      rewrite HA, (Z.mul_comm T), Z.mod_mul by lia.
      rewrite new_location_zero, HqT.
      change (shr_1 (shr_record_of_loc (2 ^ 53) loc_Exact))
        with (Build_shr_record (2 ^ 52) false false).
      cbn [shr_m loc_of_shr_record round_nearest_even].
      rewrite finish_normal by lia.
      change (2 ^ 52 =? 2 ^ 53) with false. cbv iota.
      apply le_one_finite. right. split; [lia | reflexivity].
Qed.

Lemma Zdigits2_bounds a :
  0 < a < 2 ^ 63 ->
  1 <= Zdigits2 a <= 63 /\ 2 ^ (Zdigits2 a - 1) <= a < 2 ^ Zdigits2 a.
Proof.
  intros Ha. destruct a as [|p|p]; try lia. cbn [Zdigits2].
  pose proof (digits2_pos_bounds p) as Hb. split; [split; [lia|] | exact Hb].
  destruct (Z.le_gt_cases (Zpos (digits2_pos p)) 63) as [H|H]; [exact H|].
  assert (2 ^ 63 <= 2 ^ (Zpos (digits2_pos p) - 1))
    by (apply Z.pow_le_mono_r; lia).
  lia.
Qed.

Lemma iter_xO p x : Zpos (Pos.iter xO p x) = Zpos p * 2 ^ Zpos x.
Proof.
  induction x as [|x IH] using Pos.peano_ind.
  - simpl. lia.
  - rewrite Pos.iter_succ, Pos2Z.inj_xO, IH, Pos2Z.inj_succ, Z.pow_succ_r by lia.
    lia.
Qed.

Lemma pow2_split d n : 0 <= n <= d -> 2 ^ d = 2 ^ n * 2 ^ (d - n).
Proof. intros H. rewrite <- Z.pow_add_r by lia. f_equal. lia. Qed.

Lemma shifted_bounds a d :
  53 < d -> 2 ^ (d - 1) <= a < 2 ^ d ->
  2 ^ 52 <= a / 2 ^ (d - 53) < 2 ^ 53.
Proof.
  intros Hd Ha.
  assert (Hp : 0 < 2 ^ (d - 53)) by (apply Z.pow_pos_nonneg; lia).
  rewrite (pow2_split (d - 1) (d - 53)) in Ha by lia.
  rewrite (pow2_split d (d - 53)) in Ha by lia.
  replace (d - 1 - (d - 53)) with 52 in Ha by lia.
  replace (d - (d - 53)) with 53 in Ha by lia.
  split; [apply Z.div_le_lower_bound | apply Z.div_lt_upper_bound]; lia.
Qed.

Lemma float64_of_int64_round a :
  0 < a < 2 ^ 63 ->
  float64_of_int64 a
  = S754_finite false (Z.to_pos (fst (round_int a))) (snd (round_int a)).
Proof.
  intros Ha. pose proof (Zdigits2_bounds a Ha) as [Hd Hb].
  unfold round_int. destruct a as [|p|p]; try lia.
  cbn [Zdigits2] in *. set (d := Zpos (digits2_pos p)) in *.
  unfold float64_of_int64, binary_normalize, binary_round.
  fold d. unfold fexp at 1, emin, prec at 1 2, emax at 1.
  replace (Z.max (d + 0 - 53) (3 - 1024 - 53)) with (d - 53) by lia.
  unfold shl_align.
  destruct (d <=? 53) eqn:Hle.
  - apply Z.leb_le in Hle.
    assert (Hmz : exists mz,
      (match d - 53 - 0 with
       | Zneg x => (Pos.iter xO p x, d - 53)
       | _ => (p, 0)
       end) = (mz, d - 53) /\ Zpos mz = Zpos p * 2 ^ (53 - d)).
    { destruct (d - 53 - 0) as [|x|x] eqn:Hx; try lia.
      - exists p. assert (d = 53) as -> by lia. split; [reflexivity|].
        change (2 ^ (53 - 53)) with 1. lia.
      - exists (Pos.iter xO p x). split; [reflexivity|].
        rewrite iter_xO. f_equal. f_equal. lia. }
    destruct Hmz as (mz & -> & Hmz).
    assert (Hm53 : 2 ^ 52 <= Zpos mz < 2 ^ 53).
    { rewrite Hmz.
      rewrite (pow2_split 52 (53 - d)), (pow2_split 53 (53 - d)) by lia.
      replace (52 - (53 - d)) with (d - 1) by lia.
      replace (53 - (53 - d)) with d by lia.
      assert (0 < 2 ^ (53 - d)) by (apply Z.pow_pos_nonneg; lia). nia. }
    rewrite binary_round_aux_finish, shr_fexp_53 by lia.
    cbn [shr_record_of_loc shr_m loc_of_shr_record round_nearest_even].
    rewrite finish_normal by lia.
    destruct (Zpos mz =? 2 ^ 53) eqn:Htop; [apply Z.eqb_eq in Htop; lia|].
    cbn [fst snd]. rewrite <- Hmz. reflexivity.
  - apply Z.leb_gt in Hle.
    destruct (d - 53 - 0) as [|x|x] eqn:Hx; try lia.
    rewrite binary_round_aux_finish. unfold shr_fexp.
    cbn [Zdigits2]. fold d. unfold fexp, emin, prec at 1 2, emax at 1.
    replace (Z.max (d + 0 - 53) (3 - 1024 - 53) - 0) with (d - 53) by lia.
    rewrite shr_exact by lia. rewrite round_nearest_even_up.
    pose proof (shifted_bounds (Zpos p) d Hle Hb) as Hq.
    assert (Hm1 : 2 ^ 52 <= Zpos p / 2 ^ (d - 53)
                          + (if up (Zpos p) (d - 53) then 1 else 0) <= 2 ^ 53)
      by (destruct (up _ _); lia).
    rewrite finish_normal by lia.
    destruct (_ =? 2 ^ 53); cbn [fst snd]; f_equal; lia.
Qed.

Lemma up_mono a t n :
  0 < n -> 0 <= a <= t -> a / 2 ^ n = t / 2 ^ n ->
  up a n = true -> up t n = true.
Proof.
  intros Hn Hat Hq. unfold up. rewrite <- Hq.
  assert (Hh : 0 < 2 ^ (n - 1)) by (apply Z.pow_pos_nonneg; lia).
  assert (Hpow : 2 ^ n = 2 ^ (n - 1) * 2).
  { replace n with (n - 1 + 1) at 1 by lia. rewrite Z.pow_add_r by lia. lia. }
  assert (Hxa : a / 2 ^ (n - 1) / 2 = a / 2 ^ n)
    by (rewrite Z.div_div, Hpow by lia; reflexivity).
  assert (Hxt : t / 2 ^ (n - 1) / 2 = a / 2 ^ n)
    by (rewrite Z.div_div, <- Hpow, Hq by lia; reflexivity).
  assert (Hmono : a / 2 ^ (n - 1) <= t / 2 ^ (n - 1))
    by (apply Z.div_le_mono; lia).
  pose proof (Z.div_mod (a / 2 ^ (n - 1)) 2 ltac:(lia)) as Ea.
  pose proof (Z.div_mod (t / 2 ^ (n - 1)) 2 ltac:(lia)) as Et.
  rewrite Hxa in Ea. rewrite Hxt in Et.
  rewrite Zmod_odd in Ea, Et.
  pose proof (Z.div_mod a (2 ^ (n - 1)) ltac:(lia)) as Da.
  pose proof (Z.div_mod t (2 ^ (n - 1)) ltac:(lia)) as Dt.
  pose proof (Z.mod_pos_bound a (2 ^ (n - 1)) Hh) as Ba.
  pose proof (Z.mod_pos_bound t (2 ^ (n - 1)) Hh) as Bt.
  intros Hup. apply andb_true_iff in Hup as [Hodd Hrest].
  rewrite Hodd in Ea.
  destruct (Z.odd (t / 2 ^ (n - 1))) eqn:Hoddt; [|lia]. cbn [andb].
  apply orb_true_iff in Hrest as [Hlow|Hq1].
  - apply orb_true_iff. left.
    apply negb_true_iff, Z.eqb_neq in Hlow. apply negb_true_iff, Z.eqb_neq.
    assert (Hsame : a / 2 ^ (n - 1) = t / 2 ^ (n - 1)) by lia.
    rewrite Hsame in Da. nia.
  - rewrite Hq1. apply orb_true_r.
Qed.

(** [float64(a) <= float64(t)] whenever [0 < a <= t]: the conversion is
    monotone, stated on mantissas and exponents. *)
Lemma round_int_mono a t :
  0 < a -> a <= t -> t < 2 ^ 63 ->
  2 ^ 52 <= fst (round_int a) < 2 ^ 53 /\
  2 ^ 52 <= fst (round_int t) < 2 ^ 53 /\
  -52 <= snd (round_int a) <= 11 /\ -52 <= snd (round_int t) <= 11 /\
  (snd (round_int a) < snd (round_int t) \/
   (snd (round_int a) = snd (round_int t) /\
    fst (round_int a) <= fst (round_int t))).
Proof.
  intros Ha Hat Ht.
  pose proof (Zdigits2_bounds a ltac:(lia)) as [Hda Hba].
  pose proof (Zdigits2_bounds t ltac:(lia)) as [Hdt Hbt].
  set (da := Zdigits2 a) in *. set (dt := Zdigits2 t) in *.
  assert (Hd : da <= dt).
  { destruct (Z.le_gt_cases da dt) as [H|H]; [exact H|].
    assert (2 ^ dt <= 2 ^ (da - 1)) by (apply Z.pow_le_mono_r; lia). lia. }
  assert (Hexact : forall x d, 1 <= d <= 53 -> 2 ^ (d - 1) <= x < 2 ^ d ->
            2 ^ 52 <= x * 2 ^ (53 - d) < 2 ^ 53).
  { intros x d Hdx Hx.
    rewrite (pow2_split 52 (53 - d)), (pow2_split 53 (53 - d)) by lia.
    replace (52 - (53 - d)) with (d - 1) by lia.
    replace (53 - (53 - d)) with d by lia.
    assert (0 < 2 ^ (53 - d)) by (apply Z.pow_pos_nonneg; lia). nia. }
  unfold round_int. fold da dt.
  destruct (da <=? 53) eqn:Hla; [apply Z.leb_le in Hla | apply Z.leb_gt in Hla];
  (destruct (dt <=? 53) eqn:Hlt; [apply Z.leb_le in Hlt | apply Z.leb_gt in Hlt]);
    try lia.
  - (* both exact *)
    cbn [fst snd].
    pose proof (Hexact a da ltac:(lia) Hba). pose proof (Hexact t dt ltac:(lia) Hbt).
    repeat (split; [lia|]).
    destruct (Z.eq_dec da dt) as [E|E]; [right | left; lia].
    split; [lia|]. rewrite E.
    assert (0 < 2 ^ (53 - dt)) by (apply Z.pow_pos_nonneg; lia). nia.
  - (* [a] exact, [t] rounded *)
    pose proof (Hexact a da ltac:(lia) Hba).
    pose proof (shifted_bounds t dt Hlt Hbt) as Hqt.
    destruct (Z.eqb_spec
      (t / 2 ^ (dt - 53) + (if up t (dt - 53) then 1 else 0)) (2 ^ 53))
      as [Htop|Htop];
      destruct (up t (dt - 53)); cbn [fst snd];
      repeat (split; [lia|]); left; lia.
  - (* both rounded *)
    pose proof (shifted_bounds a da Hla Hba) as Hqa.
    pose proof (shifted_bounds t dt Hlt Hbt) as Hqt.
    set (m1a := a / 2 ^ (da - 53) + (if up a (da - 53) then 1 else 0)).
    set (m1t := t / 2 ^ (dt - 53) + (if up t (dt - 53) then 1 else 0)).
    assert (Hm1a : 2 ^ 52 <= m1a <= 2 ^ 53)
      by (unfold m1a; destruct (up a (da - 53)); lia).
    assert (Hm1t : 2 ^ 52 <= m1t <= 2 ^ 53)
      by (unfold m1t; destruct (up t (dt - 53)); lia).
    assert (Hkey : da < dt \/ (da = dt /\ m1a <= m1t)).
    { destruct (Z.eq_dec da dt) as [E|E]; [right | left; lia].
      split; [exact E|]. unfold m1a, m1t. rewrite E.
      assert (Hp : 0 < 2 ^ (dt - 53)) by (apply Z.pow_pos_nonneg; lia).
      assert (Hqq : a / 2 ^ (dt - 53) <= t / 2 ^ (dt - 53))
        by (apply Z.div_le_mono; lia).
      destruct (Z.eq_dec (a / 2 ^ (dt - 53)) (t / 2 ^ (dt - 53))) as [Eq|Ne].
      - pose proof (up_mono a t (dt - 53) ltac:(lia) ltac:(lia) Eq) as Hup.
        rewrite Eq. destruct (up a (dt - 53)); [rewrite Hup by reflexivity; lia|].
        destruct (up t (dt - 53)); lia.
      - destruct (up a (dt - 53)), (up t (dt - 53)); lia. }
    destruct (Z.eqb_spec m1a (2 ^ 53)) as [Ta|Ta];
      destruct (Z.eqb_spec m1t (2 ^ 53)) as [Tt|Tt];
      cbn [fst snd]; repeat (split; [lia|]); lia.
Qed.

(** The quotient [float64(a) / float64(t)] of two counts with
    [0 <= a <= t] and [0 < t] lies in [[0, 1]]. *)
Lemma ratio_in_unit_interval a t :
  0 <= a <= t -> 0 < t <= Int64.max_int ->
  let r := float64_div (float64_of_int64 a) (float64_of_int64 t) in
  float64_leb float64_zero r = true /\ float64_leb r float64_one = true.
Proof.
  intros Ha Ht r. subst r. unfold Int64.max_int in Ht.
  destruct (Z.eq_dec a 0) as [->|Hne].
  - rewrite (float64_of_int64_round t) by lia. split; reflexivity.
  - pose proof (round_int_mono a t ltac:(lia) ltac:(lia) ltac:(lia))
      as (Hma & Hmt & Hea & Het & Hkey).
    rewrite (float64_of_int64_round a), (float64_of_int64_round t) by lia.
    apply float64_div_le_one; rewrite ?Z2Pos.id by lia; assumption.
Qed.

(** C9: in every state reached from a fresh window by fewer than [2^63]
    calls of [Fail] and [Success] (and any resets and clock movements),
    [ErrorRate()] is the [float64] quotient of [Failures()] and
    [Failures() + Successes()], a value between 0.0 and 1.0; and it is
    exactly 0.0, without any division, when nothing is counted. *)
Theorem ErrorRate_fraction (ops : list op) (s : state) :
  reachable_by ops s ->
  count_ops is_Fail ops + count_ops is_Success ops <= Int64.max_int ->
  let w := snd s in
  ErrorRate w =
    (if Failures w + Successes w =? 0 then float64_zero
     else float64_div (float64_of_int64 (Failures w))
                      (float64_of_int64 (Failures w + Successes w))) /\
  float64_leb float64_zero (ErrorRate w) = true /\
  float64_leb (ErrorRate w) float64_one = true /\
  (Failures w + Successes w = 0 -> ErrorRate w = float64_zero).
Proof.
  intros Hreach Hlen w.
  pose proof (reachable_counted ops s Hreach Hlen) as Hc. fold w in Hc.
  destruct (counted_queries _ _ _ Hc Hlen) as (HF & HS & HT & Hf0 & Hs0).
  assert (Hrate : ErrorRate w =
    (if Failures w + Successes w =? 0 then float64_zero
     else float64_div (float64_of_int64 (Failures w))
                      (float64_of_int64 (Failures w + Successes w)))).
  { rewrite ErrorRate_queries, HT, HF, HS. reflexivity. }
  split; [exact Hrate|].
  assert (Hzero : Failures w + Successes w = 0 -> ErrorRate w = float64_zero).
  { intros H0. rewrite Hrate, H0. reflexivity. }
  destruct (Z.eq_dec (Failures w + Successes w) 0) as [H0|Hne].
  - rewrite (Hzero H0). split; [reflexivity|]. split; [reflexivity|].
    intros _. reflexivity.
  - rewrite Hrate. apply Z.eqb_neq in Hne. rewrite Hne.
    destruct (ratio_in_unit_interval (Failures w) (Failures w + Successes w))
      as [Hlo Hhi]; [lia | lia |].
    split; [exact Hlo|]. split; [exact Hhi|].
    intros H0. apply Z.eqb_neq in Hne. contradiction.
Qed.

(** * The scenarios of [window_test.go] on the model *)

(** [TestWindowCounts], with a clock that stands still: two failures and
    two successes give an error rate of 0.5; a reset clears both counts. *)
Example TestWindowCounts :
  exists w0 s,
    newWindow (10 * Millisecond) 2 clock0 0%nat = Returns w0 /\
    run (clock0, w0) [OpFail; OpFail; OpSuccess; OpSuccess] = Returns s /\
    Failures (snd s) = 2 /\ Successes (snd s) = 2 /\
    ErrorRate (snd s) = float64_half /\
    Failures (Reset (snd s)) = 0 /\ Successes (Reset (snd s)) = 0.
Proof. do 2 eexists. repeat split; reflexivity. Qed.

(** The second half of [TestWindowSlides]: 15ms later a success is
    recorded, and no bucket reports a failure any more. *)
Example TestWindowSlides_expiry :
  exists w0 s,
    newWindow (10 * Millisecond) 2 clock0 0%nat = Returns w0 /\
    run (clock0, w0)
        [OpFail; OpAdd 0%nat (6 * Millisecond); OpFail;
         OpAdd 0%nat (15 * Millisecond); OpSuccess] = Returns s /\
    failing_buckets (snd s) = 0%nat /\ Successes (snd s) = 1.
Proof. do 2 eexists. repeat split; reflexivity. Qed.

(** The default window: 10 buckets of one second each. *)
Example default_window :
  exists w,
    newWindow DefaultWindowTime DefaultWindowBuckets clock0 0%nat = Returns w /\
    len w = 10 /\ bucketTime w = Second.
Proof. eexists. repeat split; reflexivity. Qed.

(** * The theorems at concrete inputs *)

Lemma example_reachable : reachable_by example_ops example_state.
Proof.
  exists (10 * Millisecond), 2, clock0, 0%nat,
    (mkWindow [zero_bucket; zero_bucket] (5 * Millisecond) 0 0 0%nat).
  split; reflexivity.
Qed.

Lemma FailLimited_saturates_witness :
  let b := Limited.record_all 3 (Limited.Reset (Limited.mkBucket 7 7 7))
             [Limited.EvFail; Limited.EvSuccess; Limited.EvFail;
              Limited.EvFail; Limited.EvFail; Limited.EvFail] in
  0 < 3 <= Int64.max_int /\ Limited.failure b = 3 /\ Limited.limited b = 2.
Proof.
  assert (Hcap : 0 < 3 <= Int64.max_int) by (unfold Int64.max_int; lia).
  split; [exact Hcap|].
  destruct (FailLimited_saturates 3 Hcap) as (_ & _ & H & _).
  destruct (H (Limited.mkBucket 7 7 7)
              [Limited.EvFail; Limited.EvSuccess; Limited.EvFail;
               Limited.EvFail; Limited.EvFail; Limited.EvFail]) as [_ Hk].
  destruct Hk as [Hf Hl]; [reflexivity|].
  split; [exact Hf | exact Hl].
Defined.

Lemma newWindow_rejects_nonpositive_witness :
  -3 <= 0 /\
  newWindow (10 * Millisecond) (-3) clock0 0%nat = Panics MakesliceLenOutOfRange.
Proof.
  split; [lia|].
  apply (proj1 (newWindow_rejects_nonpositive (10 * Millisecond) (-3) clock0 0%nat)).
  lia.
Defined.

Lemma getLatestBucket_rotation_witness :
  0 < len example_window /\
  exists w' b',
    getLatestBucket late_clock example_window = Returns (w', b') /\
    lastIdx w' = 3 /\ b' = 1%nat /\
    Forall (fun b => b = zero_bucket) (buckets w').
Proof.
  assert (Hn : 0 < len example_window) by reflexivity.
  split; [exact Hn|].
  destruct (getLatestBucket_rotation late_clock example_window Hn) as [_ Hrot].
  destruct Hrot as (w' & b' & Hget & _ & HI & Hb & _ & _ & _ & _ & _ & _ & _ & _ & Hall);
    [reflexivity | reflexivity |].
  exists w', b'. split; [exact Hget|]. split; [exact HI|]. split.
  - rewrite Hb, HI. reflexivity.
  - apply Hall; [vm_compute; discriminate | simpl; lia | reflexivity].
Defined.

Lemma counts_within_one_bucket_witness :
  exists cs' w,
    run (clock0, mkWindow [zero_bucket; zero_bucket] (5 * Millisecond) 0 0 0%nat)
        [OpFail; OpFail; OpSuccess; OpSuccess] = Returns (cs', w) /\
    Failures w = 2 /\ Successes w = 2 /\ Total w = 4 /\
    ErrorRate w = float64_div (float64_of_int64 2) (float64_of_int64 4).
Proof.
  apply (counts_within_one_bucket (10 * Millisecond) 2 clock0 0%nat
           (mkWindow [zero_bucket; zero_bucket] (5 * Millisecond) 0 0 0%nat)
           [OpFail; OpFail; OpSuccess; OpSuccess]).
  - reflexivity.
  - reflexivity.
  - reflexivity.
  - vm_compute. discriminate.
Defined.

Lemma expiry_after_full_window_witness :
  exists cs' w',
    run (late_clock, example_window) [OpFail; OpSuccess] = Returns (cs', w') /\
    Failures w' = 1 /\ Successes w' = 1 /\ Total w' = 2.
Proof.
  destruct (expiry_after_full_window late_clock example_window OpFail [OpSuccess])
    as (cs' & w' & Hrun & _ & _ & Hexact).
  - reflexivity.
  - reflexivity.
  - simpl. lia.
  - reflexivity.
  - reflexivity.
  - left. reflexivity.
  - vm_compute. discriminate.
  - exists cs', w'. split; [exact Hrun|].
    apply Hexact; reflexivity.
Defined.

Lemma ErrorRate_fraction_witness :
  count_ops is_Fail example_ops + count_ops is_Success example_ops
    <= Int64.max_int /\
  ErrorRate (snd example_state)
  = float64_div (float64_of_int64 3) (float64_of_int64 4) /\
  float64_leb float64_zero (ErrorRate (snd example_state)) = true /\
  float64_leb (ErrorRate (snd example_state)) float64_one = true.
Proof.
  assert (Hlen : count_ops is_Fail example_ops
                 + count_ops is_Success example_ops <= Int64.max_int)
    by (vm_compute; discriminate).
  split; [exact Hlen|].
  destruct (ErrorRate_fraction example_ops example_state example_reachable Hlen)
    as (Hrate & Hlo & Hhi & _).
  split; [rewrite Hrate; reflexivity|]. split; [exact Hlo | exact Hhi].
Defined.

Lemma Total_Failures_Successes_witness :
  Total (snd example_state)
  = Failures (snd example_state) + Successes (snd example_state).
Proof.
  apply (proj2 (Total_Failures_Successes example_ops example_state
                  example_reachable)).
  vm_compute. discriminate.
Defined.

(** * Further properties of [window.go] *)

(** ** The bucket [getLatestBucket] returns *)

Lemma rotate_current iters : forall w b e w' b',
  rotate (S iters) w b e = (w', b') ->
  b' = Z.to_nat (lastIdx w' mod len w).
Proof.
  induction iters as [|iters IH]; intros w b e w' b' H.
  - simpl in H. destruct (_ <? _); inversion H; subst; reflexivity.
  - remember (S iters) as it. simpl in H.
    destruct (Int64.sub e (bucketTime w) <? bucketTime w).
    + inversion H; subst; reflexivity.
    + subst it. apply IH in H. rewrite H. unfold len. simpl.
      now rewrite length_alter.
Qed.

(** What a call leaves behind, whichever branch it took: the shape of the
    window, a valid bucket index that is the cursor's position, and a last
    access that is the old one or the present reading of the clock. *)
Lemma getLatestBucket_shape cs w w' b :
  0 < len w -> getLatestBucket cs w = Returns (w', b) ->
  (b < length (buckets w'))%nat /\ b = current w' /\
  length (buckets w') = length (buckets w) /\
  bucketTime w' = bucketTime w /\ clock w' = clock w /\
  ((w' = w /\ Sub (Now cs (clock w)) (lastAccess w) <= bucketTime w) \/
   (lastAccess w' = Now cs (clock w) /\
    bucketTime w < Sub (Now cs (clock w)) (lastAccess w))).
Proof.
  intros Hn. unfold getLatestBucket, uint64_mod.
  destruct (len w =? 0) eqn:H0; [apply Z.eqb_eq in H0; lia|]. cbn [bind].
  pose proof (Z.mod_pos_bound (lastIdx w) (len w) Hn) as Hlt.
  assert (Hb : (Z.to_nat (lastIdx w mod len w) < length (buckets w))%nat)
    by (unfold len in *; lia).
  destruct (bucketTime w <? _) eqn:Hcmp.
  - apply Z.ltb_lt in Hcmp.
    destruct (rotate _ _ _ _) as [w1 b1] eqn:Hrot. intros H. inversion H; subst.
    pose proof (rotate_frame _ _ _ _ _ _ Hrot) as (Hf1 & _ & Hf3 & Hf4).
    pose proof (rotate_index _ _ _ _ _ _ Hrot Hn Hb) as Hb'.
    destruct (Z.to_nat (len w)) as [|m] eqn:Hm; [lia|].
    apply rotate_current in Hrot.
    unfold current, len in *. simpl. rewrite Hf4.
    do 5 (split; [first [assumption | reflexivity]|]).
    right. split; [reflexivity | exact Hcmp].
  - apply Z.ltb_ge in Hcmp. intros H. inversion H; subst.
    unfold current.
    do 5 (split; [first [assumption | reflexivity]|]).
    left. split; [reflexivity | exact Hcmp].
Qed.

(** X1: on a window with at least one bucket [getLatestBucket] always
    returns, and the bucket it returns is inside the ring: the index is the
    cursor's position modulo the number of buckets.  The call changes
    neither the number of buckets, nor the bucket duration, nor the clock,
    and the last access is afterwards the old one or the clock's present
    reading. *)
Theorem getLatestBucket_in_ring (cs : clocks) (w : window) :
  0 < len w ->
  exists w' b,
    getLatestBucket cs w = Returns (w', b) /\
    (b < length (buckets w'))%nat /\ b = current w' /\
    length (buckets w') = length (buckets w) /\
    bucketTime w' = bucketTime w /\ clock w' = clock w /\
    (lastAccess w' = lastAccess w \/ lastAccess w' = Now cs (clock w)).
Proof.
  intros Hn.
  destruct (getLatestBucket_returns cs w Hn) as (w' & b & Hget & _).
  exists w', b. split; [exact Hget|].
  destruct (getLatestBucket_shape cs w w' b Hn Hget)
    as (Hb & Hcur & Hlen & Hbt & Hc & Hla).
  repeat split; try assumption.
  destruct Hla as [[-> _] | [Hla _]]; auto.
Qed.

Lemma getLatestBucket_in_ring_witness :
  0 < len example_window /\
  exists w' b,
    getLatestBucket late_clock example_window = Returns (w', b) /\
    (b < length (buckets w'))%nat.
Proof.
  assert (Hn : 0 < len example_window) by reflexivity.
  split; [exact Hn|].
  destruct (getLatestBucket_in_ring late_clock example_window Hn)
    as (w' & b & Hget & Hb & _).
  exists w', b. split; assumption.
Defined.

(** Once a call has been made, the window is settled for the present
    reading of the clock: the rotation test fails. *)
Lemma getLatestBucket_settles cs w w' b :
  0 < len w -> 0 <= bucketTime w ->
  getLatestBucket cs w = Returns (w', b) ->
  0 < len w' /\ Sub (Now cs (clock w')) (lastAccess w') <= bucketTime w'.
Proof.
  intros Hn Hbt Hget.
  destruct (getLatestBucket_shape cs w w' b Hn Hget)
    as (_ & _ & Hlen & Hbt' & Hc & Hla).
  split; [unfold len in *; lia|].
  destruct Hla as [[-> He] | [Hla _]]; [exact He|].
  rewrite Hc, Hla, Hbt', Sub_diag. exact Hbt.
Qed.

(** X2: rotation is idempotent at a given instant.  For a non-negative
    bucket duration, calling [getLatestBucket] again while the clock has
    not moved changes nothing and returns the same bucket. *)
Theorem getLatestBucket_idempotent (cs : clocks) (w w' : window) (b : nat) :
  0 < len w -> 0 <= bucketTime w ->
  getLatestBucket cs w = Returns (w', b) ->
  getLatestBucket cs w' = Returns (w', b).
Proof.
  intros Hn Hbt Hget.
  destruct (getLatestBucket_settles cs w w' b Hn Hbt Hget) as [Hn' He].
  destruct (getLatestBucket_shape cs w w' b Hn Hget) as (_ & Hcur & _).
  rewrite getLatestBucket_same by assumption. rewrite Hcur. reflexivity.
Qed.

Lemma getLatestBucket_idempotent_witness :
  exists w' b,
    getLatestBucket late_clock example_window = Returns (w', b) /\
    getLatestBucket late_clock w' = Returns (w', b).
Proof.
  destruct (getLatestBucket_returns late_clock example_window) as (w' & b & Hget & _);
    [reflexivity|].
  exists w', b. split; [exact Hget|].
  apply (getLatestBucket_idempotent late_clock example_window w' b);
    [reflexivity | vm_compute; discriminate | exact Hget].
Defined.

(** ** Recording at a fixed instant *)

Lemma getLatestBucket_set_buckets cs w bs :
  0 < len w -> length bs = length (buckets w) ->
  Sub (Now cs (clock w)) (lastAccess w) <= bucketTime w ->
  getLatestBucket cs (set_buckets w bs) = Returns (set_buckets w bs, current w).
Proof.
  intros Hn Hlen He.
  rewrite getLatestBucket_same.
  - unfold current, len. simpl. now rewrite Hlen.
  - unfold len in *. simpl. lia.
  - exact He.
Qed.

Lemma bucket_Fail_Success b :
  bucket_Fail (bucket_Success b) = bucket_Success (bucket_Fail b).
Proof. reflexivity. Qed.

(** X3: at a given instant the order of recording does not matter.  For a
    non-negative bucket duration and a clock that stands still, a [Fail]
    followed by a [Success] leaves the window exactly as a [Success]
    followed by a [Fail] does: the first call rotates if it must, the
    second finds the window settled, and both increments land in the same
    bucket. *)
Theorem Fail_Success_commute (cs : clocks) (w : window) :
  0 < len w -> 0 <= bucketTime w ->
  exists w2,
    (let* w1 := Fail cs w in Success cs w1) = Returns w2 /\
    (let* w1 := Success cs w in Fail cs w1) = Returns w2.
Proof.
  intros Hn Hbt.
  destruct (getLatestBucket_returns cs w Hn) as (w' & b & Hget & _).
  destruct (getLatestBucket_settles cs w w' b Hn Hbt Hget) as [Hn' He].
  destruct (getLatestBucket_shape cs w w' b Hn Hget) as (_ & Hcur & _).
  exists (set_buckets w' (alter bucket_Success b (alter bucket_Fail b (buckets w')))).
  unfold Fail at 1, Success at 2. rewrite Hget. cbn [bind].
  unfold Success at 1, Fail at 1.
  rewrite !getLatestBucket_set_buckets by (rewrite ?length_alter; auto).
  cbn [bind]. rewrite <- Hcur. simpl. split; [reflexivity|].
  f_equal. f_equal. rewrite !list_alter_alter_eq.
  apply list_alter_ext; [|reflexivity]. intros x _. reflexivity.
Qed.

Lemma Fail_Success_commute_witness :
  exists w2,
    (let* w1 := Fail late_clock example_window in Success late_clock w1)
      = Returns w2 /\
    (let* w1 := Success late_clock example_window in Fail late_clock w1)
      = Returns w2.
Proof.
  apply (Fail_Success_commute late_clock example_window);
    [reflexivity | vm_compute; discriminate].
Defined.

(** ** What a rotation keeps *)

Lemma ring_index_not_current w j :
  0 < len w -> 0 <= lastIdx w -> lastIdx w + len w < 2 ^ 64 ->
  1 <= j < len w -> current w <> ring_index w j.
Proof.
  intros Hn Hlo Hhi Hj Heq. unfold current, ring_index, Uint64.wrap in Heq.
  rewrite (Z.mod_small (lastIdx w + j) (2 ^ 64)) in Heq by lia.
  pose proof (Z.mod_pos_bound (lastIdx w) (len w) Hn).
  pose proof (Z.mod_pos_bound (lastIdx w + j) (len w) Hn).
  assert (Hmod : lastIdx w mod len w = (lastIdx w + j) mod len w) by lia.
  assert (Hj0 : j mod len w = 0).
  { replace j with ((lastIdx w + j) - lastIdx w) by lia.
    rewrite Zminus_mod, <- Hmod, Z.sub_diag. apply Z.mod_0_l. lia. }
  rewrite Z.mod_small in Hj0 by lia. lia.
Qed.

(** X4: the bucket being recorded into outlives every gap shorter than the
    whole window.  When the time elapsed since the last rotation is below
    [bucketCount * bucketTime], [getLatestBucket] leaves the contents of
    the bucket that was current untouched (for a cursor that does not wrap
    around its 64 bits): what was recorded last is still counted after
    the call. *)
Theorem current_bucket_survives (cs : clocks) (w w' : window) (b' : nat) :
  0 < len w -> 0 < bucketTime w ->
  0 <= lastIdx w -> lastIdx w + len w < 2 ^ 64 ->
  Sub (Now cs (clock w)) (lastAccess w) < len w * bucketTime w ->
  getLatestBucket cs w = Returns (w', b') ->
  buckets w' !! current w = buckets w !! current w.
Proof.
  intros Hn Hbt Hlo Hhi Hgap Hget.
  destruct (Z.le_gt_cases (Sub (Now cs (clock w)) (lastAccess w)) (bucketTime w))
    as [He|He].
  - rewrite getLatestBucket_same in Hget by assumption.
    inversion Hget; subst. reflexivity.
  - destruct (getLatestBucket_rotates cs w Hn Hbt He)
      as (w1 & b1 & Hget1 & [_ _ _ HK] & _).
    rewrite Hget in Hget1. inversion Hget1; subst. simpl.
    apply HK. intros j Hj. apply ring_index_not_current; try assumption.
    assert (Sub (Now cs (clock w)) (lastAccess w) / bucketTime w < len w)
      by (apply Z.div_lt_upper_bound; lia).
    lia.
Qed.

Lemma current_bucket_survives_witness :
  exists w' b',
    getLatestBucket (fun _ => 12 * Millisecond) example_window = Returns (w', b') /\
    buckets w' !! current example_window = Some (mkBucket 1 0).
Proof.
  destruct (getLatestBucket_returns (fun _ => 12 * Millisecond) example_window)
    as (w' & b' & Hget & _); [reflexivity|].
  exists w', b'. split; [exact Hget|].
  rewrite (current_bucket_survives (fun _ => 12 * Millisecond)
             example_window w' b'); [reflexivity | ..].
  - reflexivity.
  - reflexivity.
  - vm_compute. discriminate.
  - reflexivity.
  - reflexivity.
  - exact Hget.
Defined.

(** ** The effect of one call on the counts *)

(** [Fail] on a window whose counters have not overflowed: the rotation
    can only lower the sums, then the failures grow by one. *)
Lemma Fail_sums cs w kf ks :
  counted kf ks w -> kf + ks < Int64.max_int ->
  exists w' f0 s0,
    Fail cs w = Returns w' /\ counted (kf + 1) ks w' /\
    sum_failure (buckets w') = f0 + 1 /\ sum_success (buckets w') = s0 /\
    0 <= f0 <= sum_failure (buckets w) /\ 0 <= s0 <= sum_success (buckets w).
Proof.
  intros (Hn & Hnn & Hsf & Hss) Hk.
  destruct (getLatestBucket_returns cs w Hn)
    as (w' & b & Hget & Hb & Hlen & _ & _ & Hcnt).
  destruct (Hcnt Hnn) as (Hnn' & Hf & Hs).
  pose proof (nonneg_sums _ Hnn') as [Hf0 Hs0].
  destruct (record_Fail b (buckets w') Hb Hnn') as (Hnn2 & Hf' & Hs').
  { unfold sum_all. int64_lia. }
  exists (set_buckets w' (alter bucket_Fail b (buckets w'))),
    (sum_failure (buckets w')), (sum_success (buckets w')).
  unfold Fail. rewrite Hget. cbn [bind]. split; [reflexivity|].
  unfold counted, len in *. simpl. rewrite length_alter, Hf', Hs', Hlen.
  repeat split; try assumption; lia.
Qed.

Lemma Success_sums cs w kf ks :
  counted kf ks w -> kf + ks < Int64.max_int ->
  exists w' f0 s0,
    Success cs w = Returns w' /\ counted kf (ks + 1) w' /\
    sum_failure (buckets w') = f0 /\ sum_success (buckets w') = s0 + 1 /\
    0 <= f0 <= sum_failure (buckets w) /\ 0 <= s0 <= sum_success (buckets w).
Proof.
  intros (Hn & Hnn & Hsf & Hss) Hk.
  destruct (getLatestBucket_returns cs w Hn)
    as (w' & b & Hget & Hb & Hlen & _ & _ & Hcnt).
  destruct (Hcnt Hnn) as (Hnn' & Hf & Hs).
  pose proof (nonneg_sums _ Hnn') as [Hf0 Hs0].
  destruct (record_Success b (buckets w') Hb Hnn') as (Hnn2 & Hf' & Hs').
  { unfold sum_all. int64_lia. }
  exists (set_buckets w' (alter bucket_Success b (buckets w'))),
    (sum_failure (buckets w')), (sum_success (buckets w')).
  unfold Success. rewrite Hget. cbn [bind]. split; [reflexivity|].
  unfold counted, len in *. simpl. rewrite length_alter, Hf', Hs', Hlen.
  repeat split; try assumption; lia.
Qed.

(** X5: a call is always counted, and never inflates the other counts.
    In a state reached from a fresh window (fewer than [2^63 - 1] calls so
    far), right after [Fail] returns [Failures()] is at least 1 and at most
    one more than before, and [Successes()] has not grown; symmetrically
    for [Success].  The rotation resets buckets before the increment, so
    the event just recorded is never wiped by its own call. *)
Theorem call_is_counted (ops : list op) (s : state) :
  reachable_by ops s ->
  count_ops is_Fail ops + count_ops is_Success ops < Int64.max_int ->
  (exists w', Fail (fst s) (snd s) = Returns w' /\
     1 <= Failures w' <= Failures (snd s) + 1 /\
     0 <= Successes w' <= Successes (snd s)) /\
  (exists w', Success (fst s) (snd s) = Returns w' /\
     1 <= Successes w' <= Successes (snd s) + 1 /\
     0 <= Failures w' <= Failures (snd s)).
Proof.
  intros Hreach Hk.
  pose proof (reachable_counted ops s Hreach ltac:(lia)) as Hc.
  destruct (counted_queries _ _ _ Hc ltac:(lia)) as (HF & HS & _ & HfB & HsB).
  split.
  - destruct (Fail_sums (fst s) (snd s) _ _ Hc Hk)
      as (w' & f0 & s0 & Hrun & Hc' & Hf & Hs & Hf0 & Hs0).
    destruct (counted_queries _ _ _ Hc' ltac:(lia)) as (HF' & HS' & _).
    exists w'. split; [exact Hrun|]. rewrite HF', HS', HF, HS, Hf, Hs. lia.
  - destruct (Success_sums (fst s) (snd s) _ _ Hc Hk)
      as (w' & f0 & s0 & Hrun & Hc' & Hf & Hs & Hf0 & Hs0).
    destruct (counted_queries _ _ _ Hc' ltac:(lia)) as (HF' & HS' & _).
    exists w'. split; [exact Hrun|]. rewrite HF', HS', HF, HS, Hf, Hs. lia.
Qed.

Lemma call_is_counted_witness :
  exists w', Fail (fst example_state) (snd example_state) = Returns w' /\
     1 <= Failures w' <= Failures (snd example_state) + 1 /\
     0 <= Successes w' <= Successes (snd example_state).
Proof.
  apply (call_is_counted example_ops example_state example_reachable).
  vm_compute. reflexivity.
Defined.

Lemma Reset_counted_any w : 0 < len w -> counted 0 0 (Reset w).
Proof.
  intros Hn. unfold counted, len in *. simpl.
  rewrite length_map, sum_failure_Reset, sum_success_Reset.
  split; [lia|]. split; [|lia].
  apply Forall_forall. intros b Hb.
  apply list_elem_of_In, in_map_iff in Hb. destruct Hb as (b0 & <- & _).
  simpl. lia.
Qed.

(** X6: [Reset] followed by one call.  Whatever the window held and
    whatever the clock reads, a [Fail] right after [Reset] leaves
    [Failures() = 1], [Successes() = 0], [Total() = 1] and an error rate of
    exactly 1.0; a [Success] right after [Reset] leaves [Failures() = 0],
    [Successes() = 1] and an error rate of 0.0. *)
Theorem Reset_then_record (cs : clocks) (w : window) :
  0 < len w ->
  (exists w', Fail cs (Reset w) = Returns w' /\
     Failures w' = 1 /\ Successes w' = 0 /\ Total w' = 1 /\
     ErrorRate w' = float64_one) /\
  (exists w', Success cs (Reset w) = Returns w' /\
     Failures w' = 0 /\ Successes w' = 1 /\ Total w' = 1 /\
     ErrorRate w' = float64_zero).
Proof.
  intros Hn. pose proof (Reset_counted_any w Hn) as Hc.
  destruct Hc as (Hn0 & Hnn0 & Hf00 & Hs00).
  pose proof (nonneg_sums _ Hnn0) as [Hf0' Hs0'].
  assert (Hc : counted 0 0 (Reset w)) by (repeat split; assumption).
  split.
  - destruct (Fail_sums cs (Reset w) 0 0 Hc ltac:(int64_lia))
      as (w' & f0 & s0 & Hrun & Hc' & Hf & Hs & Hfb & Hsb).
    destruct (counted_queries _ _ _ Hc' ltac:(int64_lia)) as (HF & HS & HT & _).
    assert (HF1 : Failures w' = 1) by lia.
    assert (HS1 : Successes w' = 0) by lia.
    assert (HT1 : Total w' = 1) by lia.
    exists w'. split; [exact Hrun|]. rewrite ErrorRate_queries, HT1, HF1.
    repeat split; assumption.
  - destruct (Success_sums cs (Reset w) 0 0 Hc ltac:(int64_lia))
      as (w' & f0 & s0 & Hrun & Hc' & Hf & Hs & Hfb & Hsb).
    destruct (counted_queries _ _ _ Hc' ltac:(int64_lia)) as (HF & HS & HT & _).
    assert (HF1 : Failures w' = 0) by lia.
    assert (HS1 : Successes w' = 1) by lia.
    assert (HT1 : Total w' = 1) by lia.
    exists w'. split; [exact Hrun|]. rewrite ErrorRate_queries, HT1, HF1.
    repeat split; assumption.
Qed.

Lemma Reset_then_record_witness :
  exists w', Fail late_clock (Reset example_window) = Returns w' /\
     Failures w' = 1 /\ Successes w' = 0 /\ Total w' = 1 /\
     ErrorRate w' = float64_one.
Proof.
  apply (Reset_then_record late_clock example_window). reflexivity.
Defined.

(** ** Invariants of executions *)

Lemma step_counted cs w o kf ks :
  counted kf ks w -> 0 <= kf -> 0 <= ks ->
  kf + ks + (if is_Fail o then 1 else 0) + (if is_Success o then 1 else 0)
    <= Int64.max_int ->
  exists cs1 w1,
    step (cs, w) o = Returns (cs1, w1) /\
    counted (if is_Reset o then 0 else kf + (if is_Fail o then 1 else 0))
            (if is_Reset o then 0 else ks + (if is_Success o then 1 else 0)) w1.
Proof.
  intros Hc Hkf Hks Hk.
  destruct o; cbn [step is_Fail is_Success is_Reset] in *.
  - destruct (Fail_counted cs w kf ks Hc ltac:(lia)) as (w1 & -> & H1).
    exists cs, w1. split; [reflexivity|]. now rewrite Z.add_0_r.
  - destruct (Success_counted cs w kf ks Hc ltac:(lia)) as (w1 & -> & H1).
    exists cs, w1. split; [reflexivity|]. now rewrite Z.add_0_r.
  - exists cs, (Reset w). split; [reflexivity|]. eapply Reset_counted, Hc.
  - exists (clock_Add cs c d), w. split; [reflexivity|]. now rewrite !Z.add_0_r.
Qed.

Lemma run_since_reset ops : forall cs w kf ks,
  counted kf ks w -> 0 <= kf -> 0 <= ks ->
  kf + ks + count_ops is_Fail ops + count_ops is_Success ops <= Int64.max_int ->
  exists s,
    run (cs, w) ops = Returns s /\
    counted
      (if existsb is_Reset ops then count_ops is_Fail (since_reset ops)
       else kf + count_ops is_Fail ops)
      (if existsb is_Reset ops then count_ops is_Success (since_reset ops)
       else ks + count_ops is_Success ops)
      (snd s).
Proof.
  induction ops as [|o ops IH]; intros cs w kf ks Hc Hkf Hks Hk.
  - exists (cs, w). split; [reflexivity|]. simpl. now rewrite !Z.add_0_r.
  - pose proof (count_ops_nonneg is_Fail ops) as HN.
    pose proof (count_ops_nonneg is_Success ops) as HM.
    cbn [count_ops] in Hk.
    destruct (step_counted cs w o kf ks Hc Hkf Hks) as (cs1 & w1 & Hstep & Hc1).
    { destruct (is_Fail o), (is_Success o); lia. }
    destruct (IH cs1 w1 _ _ Hc1) as (s & Hrun & Hcs).
    { destruct (is_Reset o), (is_Fail o); lia. }
    { destruct (is_Reset o), (is_Success o); lia. }
    { destruct (is_Reset o), (is_Fail o), (is_Success o); lia. }
    exists s. split; [cbn [run]; rewrite Hstep; exact Hrun|].
    cbn [existsb since_reset count_ops].
    destruct (existsb is_Reset ops) eqn:Hex.
    + rewrite orb_true_r. exact Hcs.
    + rewrite orb_false_r. destruct (is_Reset o) eqn:Ho.
      * rewrite !Z.add_0_l in Hcs. exact Hcs.
      * cbn [count_ops]. rewrite !Z.add_assoc. exact Hcs.
Qed.

(** X7: the window never reports more than was recorded since the last
    [Reset].  In every state reached from a fresh window (fewer than
    [2^63] calls in all), [Failures()] lies between 0 and the number of
    [Fail] calls made after the last [Reset] (all of them if there was
    none), and [Successes()] between 0 and the number of [Success] calls
    made after it. *)
Theorem counts_since_last_Reset (ops : list op) (s : state) :
  reachable_by ops s ->
  count_ops is_Fail ops + count_ops is_Success ops <= Int64.max_int ->
  0 <= Failures (snd s) <= count_ops is_Fail (since_reset ops) /\
  0 <= Successes (snd s) <= count_ops is_Success (since_reset ops).
Proof.
  intros (wt & n & cs0 & c & w0 & Hnew & Hrun) Hk.
  apply newWindow_counted in Hnew.
  destruct (run_since_reset ops cs0 w0 0 0 Hnew ltac:(lia) ltac:(lia) ltac:(lia))
    as (s' & Hrun' & Hc).
  rewrite Hrun in Hrun'. inversion Hrun'; subst s'.
  assert (Hsince : forall f, count_ops f (since_reset ops) <= count_ops f ops /\
            (existsb is_Reset ops = false -> since_reset ops = ops)).
  { intros f. clear. induction ops as [|o ops [IH1 IH2]]; [simpl; auto with zarith|].
    pose proof (count_ops_nonneg f ops).
    cbn [since_reset count_ops existsb].
    destruct (existsb is_Reset ops) eqn:Hex.
    - split; [destruct (f o); lia|]. rewrite orb_true_r. discriminate.
    - rewrite orb_false_r. destruct (is_Reset o) eqn:Ho.
      + split; [destruct (f o); lia | discriminate].
      + split; [cbn [count_ops]; lia | reflexivity]. }
  assert (Hc' : counted (count_ops is_Fail (since_reset ops))
                        (count_ops is_Success (since_reset ops)) (snd s)).
  { destruct (existsb is_Reset ops) eqn:Hex; [exact Hc|].
    rewrite (proj2 (Hsince is_Fail) eq_refl). exact Hc. }
  pose proof (proj1 (Hsince is_Fail)). pose proof (proj1 (Hsince is_Success)).
  destruct (counted_queries _ _ _ Hc' ltac:(lia)) as (-> & -> & _ & Hf & Hs).
  split; assumption.
Qed.

Lemma example_reset_reachable :
  reachable_by [OpFail; OpFail; OpReset; OpSuccess; OpFail]
    (clock0, mkWindow [mkBucket 1 1; zero_bucket] (5 * Millisecond) 0 0 0%nat).
Proof.
  exists (10 * Millisecond), 2, clock0, 0%nat,
    (mkWindow [zero_bucket; zero_bucket] (5 * Millisecond) 0 0 0%nat).
  split; reflexivity.
Qed.

Lemma counts_since_last_Reset_witness :
  0 <= Failures (mkWindow [mkBucket 1 1; zero_bucket] (5 * Millisecond) 0 0 0%nat)
    <= 1.
Proof.
  apply (counts_since_last_Reset
           [OpFail; OpFail; OpReset; OpSuccess; OpFail]
           (clock0, mkWindow [mkBucket 1 1; zero_bucket] (5 * Millisecond) 0 0 0%nat)
           example_reset_reachable).
  vm_compute. discriminate.
Defined.

Lemma rotate_lastIdx iters : forall w b e w' b',
  0 <= lastIdx w -> lastIdx w + Z.of_nat iters < 2 ^ 64 ->
  rotate iters w b e = (w', b') ->
  lastIdx w <= lastIdx w' <= lastIdx w + Z.of_nat iters.
Proof.
  induction iters as [|iters IH]; intros w b e w' b' Hlo Hhi H; simpl in H.
  - inversion H; subst. lia.
  - assert (Hidx : Uint64.add (lastIdx w) 1 = lastIdx w + 1).
    { unfold Uint64.add, Uint64.wrap. apply Z.mod_small. lia. }
    destruct (Int64.sub e (bucketTime w) <? bucketTime w).
    + inversion H; subst. simpl. lia.
    + apply IH in H; simpl in *; lia.
Qed.

Lemma getLatestBucket_lastIdx cs w w' b :
  0 < len w -> 0 <= lastIdx w -> lastIdx w + len w < 2 ^ 64 ->
  getLatestBucket cs w = Returns (w', b) ->
  lastIdx w <= lastIdx w' <= lastIdx w + len w.
Proof.
  intros Hn Hlo Hhi. unfold getLatestBucket, uint64_mod.
  destruct (len w =? 0) eqn:H0; [apply Z.eqb_eq in H0; lia|]. cbn [bind].
  destruct (bucketTime w <? _).
  - destruct (rotate _ _ _ _) as [w1 b1] eqn:Hrot. intros H. inversion H; subst.
    apply rotate_lastIdx in Hrot; simpl; lia.
  - intros H. inversion H; subst. lia.
Qed.

(** What one operation does to the configuration and to the cursor. *)
Lemma step_frame cs w o cs' w' :
  0 < len w -> step (cs, w) o = Returns (cs', w') ->
  length (buckets w') = length (buckets w) /\
  bucketTime w' = bucketTime w /\ clock w' = clock w /\
  (0 <= lastIdx w ->
   lastIdx w + len w * ((if is_Fail o then 1 else 0) + (if is_Success o then 1 else 0))
     < 2 ^ 64 ->
   lastIdx w <= lastIdx w'
     <= lastIdx w + len w * ((if is_Fail o then 1 else 0)
                             + (if is_Success o then 1 else 0))) /\
  (lastAccess w <= Now cs (clock w) ->
   (forall c d, o = OpAdd c d -> 0 <= d) ->
   lastAccess w' <= Now cs' (clock w')).
Proof.
  intros Hn. destruct o; cbn [step is_Fail is_Success].
  - unfold Fail.
    destruct (getLatestBucket_returns cs w Hn) as (w1 & b & Hget & _).
    destruct (getLatestBucket_shape cs w w1 b Hn Hget)
      as (_ & _ & Hlen & Hbt & Hc & Hla).
    pose proof (getLatestBucket_lastIdx cs w w1 b Hn) as Hidx.
    rewrite Hget. cbn [bind]. intros H. inversion H; subst cs' w'.
    simpl. rewrite length_alter.
    do 3 (split; [assumption|]). split.
    + intros Hlo Hhi. rewrite Hget in Hidx.
      specialize (Hidx Hlo ltac:(lia) eq_refl). lia.
    + intros Hle _. destruct Hla as [[-> _] | [Hla _]]; [exact Hle|].
      rewrite Hla, Hc. lia.
  - unfold Success.
    destruct (getLatestBucket_returns cs w Hn) as (w1 & b & Hget & _).
    destruct (getLatestBucket_shape cs w w1 b Hn Hget)
      as (_ & _ & Hlen & Hbt & Hc & Hla).
    pose proof (getLatestBucket_lastIdx cs w w1 b Hn) as Hidx.
    rewrite Hget. cbn [bind]. intros H. inversion H; subst cs' w'.
    simpl. rewrite length_alter.
    do 3 (split; [assumption|]). split.
    + intros Hlo Hhi. rewrite Hget in Hidx.
      specialize (Hidx Hlo ltac:(lia) eq_refl). lia.
    + intros Hle _. destruct Hla as [[-> _] | [Hla _]]; [exact Hle|].
      rewrite Hla, Hc. lia.
  - intros H. inversion H; subst cs' w'. simpl. rewrite length_map.
    do 3 (split; [reflexivity|]). split; [lia | intros; assumption].
  - intros H. inversion H; subst cs' w'.
    do 3 (split; [reflexivity|]). split; [lia|].
    intros Hle Hd. rewrite Now_clock_Add.
    specialize (Hd c d eq_refl). destruct (Nat.eqb _ _); lia.
Qed.

Lemma run_frame ops : forall cs w cs' w',
  0 < len w -> run (cs, w) ops = Returns (cs', w') ->
  length (buckets w') = length (buckets w) /\
  bucketTime w' = bucketTime w /\ clock w' = clock w /\
  (0 <= lastIdx w ->
   lastIdx w + len w * (count_ops is_Fail ops + count_ops is_Success ops) < 2 ^ 64 ->
   lastIdx w <= lastIdx w'
     <= lastIdx w + len w * (count_ops is_Fail ops + count_ops is_Success ops)) /\
  (lastAccess w <= Now cs (clock w) -> forward_only ops = true ->
   lastAccess w' <= Now cs' (clock w')).
Proof.
  induction ops as [|o ops IH]; intros cs w cs' w' Hn Hrun.
  - inversion Hrun; subst. simpl.
    do 3 (split; [reflexivity|]). split; [lia | intros; assumption].
  - cbn [run] in Hrun.
    destruct (step (cs, w) o) as [[cs1 w1]|e] eqn:Hstep; [|discriminate].
    cbn [bind] in Hrun.
    destruct (step_frame cs w o cs1 w1 Hn Hstep) as (Hl1 & Hb1 & Hc1 & Hi1 & Ha1).
    assert (Hn1 : 0 < len w1) by (unfold len in *; lia).
    assert (Hlen1 : len w1 = len w) by (unfold len; now rewrite Hl1).
    destruct (IH cs1 w1 cs' w' Hn1 Hrun) as (Hl & Hb & Hc & Hi & Ha).
    pose proof (count_ops_nonneg is_Fail ops) as HN.
    pose proof (count_ops_nonneg is_Success ops) as HM.
    split; [lia|]. split; [congruence|]. split; [congruence|]. split.
    + cbn [count_ops]. intros Hlo Hhi. rewrite Hlen1 in Hi.
      assert (Hstep1 : lastIdx w <= lastIdx w1 <=
        lastIdx w + len w * ((if is_Fail o then 1 else 0)
                             + (if is_Success o then 1 else 0))).
      { apply Hi1; [exact Hlo|]. destruct (is_Fail o), (is_Success o); nia. }
      assert (Hrest : lastIdx w1 <= lastIdx w' <=
        lastIdx w1 + len w * (count_ops is_Fail ops + count_ops is_Success ops)).
      { apply Hi; [lia|]. destruct (is_Fail o), (is_Success o); nia. }
      destruct (is_Fail o), (is_Success o); nia.
    + intros Hle Hfw. apply Ha.
      * apply Ha1; [exact Hle|]. intros c d ->. cbn [forward_only] in Hfw.
        apply andb_true_iff in Hfw as [Hd _]. now apply Z.leb_le in Hd.
      * destruct o; cbn [forward_only] in Hfw; try exact Hfw.
        apply andb_true_iff in Hfw as [_ Hfw]. exact Hfw.
Qed.

(** X8: the configuration is fixed at construction and the cursor is
    bounded by the calls.  Along every execution from [newWindow] the
    number of buckets, the bucket duration and the clock of the window
    never change; and while [bucketCount * calls < 2^64] the cursor
    [lastIdx] has not wrapped around: it lies between 0 and [bucketCount]
    times the number of [Fail] and [Success] calls. *)
Theorem configuration_invariant
    (windowTime : Duration) (windowBuckets : Z) (cs0 cs : clocks) (c : Clock)
    (w0 w : window) (ops : list op) :
  newWindow windowTime windowBuckets cs0 c = Returns w0 ->
  run (cs0, w0) ops = Returns (cs, w) ->
  len w = windowBuckets /\ bucketTime w = bucketTime w0 /\ clock w = c /\
  (windowBuckets * (count_ops is_Fail ops + count_ops is_Success ops) < 2 ^ 64 ->
   0 <= lastIdx w
     <= windowBuckets * (count_ops is_Fail ops + count_ops is_Success ops)).
Proof.
  intros Hnew Hrun.
  pose proof (newWindow_counted _ _ _ _ _ Hnew) as (Hn & _).
  apply newWindow_returns in Hnew as [Hpos Hw0].
  assert (Hlen0 : len w0 = windowBuckets).
  { subst w0. unfold len. simpl. rewrite length_replicate. lia. }
  assert (Hidx0 : lastIdx w0 = 0) by (subst w0; reflexivity).
  assert (Hc0 : clock w0 = c) by (subst w0; reflexivity).
  destruct (run_frame ops cs0 w0 cs w Hn Hrun) as (Hl & Hb & Hc & Hi & _).
  split; [unfold len in *; lia|]. split; [exact Hb|]. split; [congruence|].
  intros Hk. rewrite Hlen0, Hidx0 in Hi. apply Hi; lia.
Qed.

Lemma configuration_invariant_witness :
  len example_window = 2 /\ bucketTime example_window = 5 * Millisecond /\
  0 <= lastIdx example_window <= 2 * 4.
Proof.
  destruct (configuration_invariant (10 * Millisecond) 2 clock0
              (fst example_state) 0%nat
              (mkWindow [zero_bucket; zero_bucket] (5 * Millisecond) 0 0 0%nat)
              example_window example_ops eq_refl eq_refl)
    as (Hl & Hb & _ & Hi).
  split; [exact Hl|]. split; [exact Hb|]. apply Hi. reflexivity.
Defined.

(** X9: with a clock that is never set back, the last access never lies
    in the future.  In every state reached from a fresh window by
    operations whose clock movements are all non-negative, [lastAccess]
    is at most the present reading of the window's clock, so the elapsed
    time [getLatestBucket] computes is never negative. *)
Theorem lastAccess_not_in_future (ops : list op) (s : state) :
  reachable_by ops s -> forward_only ops = true ->
  lastAccess (snd s) <= Now (fst s) (clock (snd s)) /\
  0 <= Sub (Now (fst s) (clock (snd s))) (lastAccess (snd s)).
Proof.
  intros (wt & n & cs0 & c & w0 & Hnew & Hrun) Hfw.
  pose proof (newWindow_counted _ _ _ _ _ Hnew) as (Hn & _).
  apply newWindow_returns in Hnew as [Hpos Hw0].
  destruct s as [cs w].
  destruct (run_frame ops cs0 w0 cs w Hn Hrun) as (_ & _ & _ & _ & Ha).
  assert (Hle : lastAccess w <= Now cs (clock w)).
  { apply Ha; [subst w0; simpl; lia | exact Hfw]. }
  split; [exact Hle|]. simpl. unfold Sub, Int64.min_int, Int64.max_int. lia.
Qed.

Lemma lastAccess_not_in_future_witness :
  lastAccess (snd example_state)
    <= Now (fst example_state) (clock (snd example_state)).
Proof.
  apply (lastAccess_not_in_future example_ops example_state example_reachable).
  reflexivity.
Defined.

(** ** Construction and the empty ring *)

Lemma quot_in_range a n :
  0 < n -> Int64.in_range a -> Int64.in_range (Z.quot a n).
Proof.
  intros Hn Ha. unfold Int64.in_range, Int64.min_int, Int64.max_int in *.
  destruct (Z.le_gt_cases 0 a) as [H0|H0].
  - rewrite Z.quot_div_nonneg by lia.
    pose proof (Z.div_pos a n H0 Hn).
    assert (a / n <= a) by (apply Z.div_le_upper_bound; nia). lia.
  - replace a with (- (- a)) by lia. rewrite Z.quot_opp_l by lia.
    rewrite Z.quot_div_nonneg by lia.
    pose proof (Z.div_pos (- a) n ltac:(lia) Hn).
    assert (- a / n <= - a) by (apply Z.div_le_upper_bound; nia). lia.
Qed.

(** X10: [newWindow] constructs exactly for the bucket counts from 1 up
    to the allocation limit of [make].  For such a count (its 16-byte
    buckets within [maxAlloc], the allocation being served) it returns a
    window of [windowBuckets] zeroed buckets whose bucket duration is
    [windowTime / windowBuckets] truncated towards zero, whose last access
    is the clock's reading and whose cursor is 0; all counts are 0 and the
    error rate is 0.0; and for a non-negative window time the buckets
    together cover the window up to the truncation, which loses fewer than
    [windowBuckets] nanoseconds.  For a count beyond the limit [make]
    panics with [len out of range], and a window that was returned has a
    count within these bounds. *)
Theorem newWindow_fresh
    (windowTime : Duration) (windowBuckets : Z) (cs : clocks) (c : Clock) :
  Int64.in_range windowTime ->
  (0 < windowBuckets -> bucket_size * windowBuckets <= maxAlloc ->
   exists w,
     newWindow windowTime windowBuckets cs c = Returns w /\
     buckets w = replicate (Z.to_nat windowBuckets) zero_bucket /\
     len w = windowBuckets /\
     bucketTime w = Z.quot windowTime windowBuckets /\
     lastAccess w = Now cs c /\ lastIdx w = 0 /\ clock w = c /\
     Failures w = 0 /\ Successes w = 0 /\ Total w = 0 /\
     ErrorRate w = float64_zero /\
     (0 <= windowTime ->
      0 <= bucketTime w /\
      windowBuckets * bucketTime w <= windowTime
        < windowBuckets * bucketTime w + windowBuckets)) /\
  (maxAlloc < bucket_size * windowBuckets ->
   newWindow windowTime windowBuckets cs c = Panics MakesliceLenOutOfRange) /\
  (forall w, newWindow windowTime windowBuckets cs c = Returns w ->
   0 < windowBuckets /\ bucket_size * windowBuckets <= maxAlloc).
Proof.
  intros Hr. split; [|split].
  - intros Hn Hbig.
    pose proof (newWindow_constructs windowTime windowBuckets cs c Hn Hbig) as Hnew.
    rewrite wrap_id in Hnew by (now apply quot_in_range).
    eexists. split; [exact Hnew|].
    cbn [buckets bucketTime lastAccess lastIdx clock].
    split; [reflexivity|].
    split; [unfold len; simpl; rewrite length_replicate; lia|].
    do 4 (split; [reflexivity|]).
    rewrite ErrorRate_queries, Failures_sum, Successes_sum, Total_sum. simpl.
    rewrite sum_failure_replicate, sum_success_replicate.
    do 4 (split; [reflexivity|]).
    intros H0. rewrite Z.quot_div_nonneg by lia.
    pose proof (Z.div_pos windowTime windowBuckets H0 Hn).
    pose proof (Z.mul_div_le windowTime windowBuckets Hn).
    pose proof (Z.mul_succ_div_gt windowTime windowBuckets Hn). lia.
  - apply newWindow_too_large.
  - intros w Hnew. split.
    + exact (proj1 (newWindow_returns _ _ _ _ _ Hnew)).
    + exact (newWindow_alloc _ _ _ _ _ Hnew).
Qed.

Lemma newWindow_fresh_witness :
  (exists w,
     newWindow (10 * Second + 7) 3 clock0 0%nat = Returns w /\
     len w = 3 /\ bucketTime w = 3333333335 /\ Failures w = 0) /\
  newWindow (10 * Second + 7) (2 ^ 60) clock0 0%nat
    = Panics MakesliceLenOutOfRange.
Proof.
  assert (Hr : Int64.in_range (10 * Second + 7))
    by (split; vm_compute; discriminate).
  split.
  - destruct (proj1 (newWindow_fresh (10 * Second + 7) 3 clock0 0%nat Hr))
      as (w & Hnew & _ & Hlen & Hbt & _ & _ & _ & HF & _).
    + reflexivity.
    + vm_compute. discriminate.
    + exists w. repeat split; assumption.
  - apply (proj1 (proj2 (newWindow_fresh (10 * Second + 7) (2 ^ 60)
                           clock0 0%nat Hr))).
    reflexivity.
Defined.

(** X11: a window without buckets (the zero value of the struct, which
    [newWindow] never returns).  [Fail] and [Success] panic with an integer
    division by zero, raised by the index computation of [getLatestBucket];
    the queries do not fault: the counts are 0, the error rate is 0.0, and
    [Reset] changes nothing. *)
Theorem empty_ring (cs : clocks) (w : window) :
  buckets w = [] ->
  Fail cs w = Panics IntegerDivideByZero /\
  Success cs w = Panics IntegerDivideByZero /\
  Failures w = 0 /\ Successes w = 0 /\ Total w = 0 /\
  ErrorRate w = float64_zero /\ buckets (Reset w) = [].
Proof.
  intros Hb.
  unfold Fail, Success, getLatestBucket, uint64_mod, len,
    Failures, Successes, Total, ErrorRate, Reset.
  rewrite Hb. simpl. repeat split.
Qed.

Lemma empty_ring_witness :
  Fail clock0 (mkWindow [] 0 0 0 0%nat) = Panics IntegerDivideByZero /\
  ErrorRate (mkWindow [] 0 0 0 0%nat) = float64_zero.
Proof.
  destruct (empty_ring clock0 (mkWindow [] 0 0 0 0%nat) eq_refl)
    as (HF & _ & _ & _ & _ & HE & _).
  split; assumption.
Defined.

(** ** Exact error rates *)

Lemma float64_div_same m e :
  2 ^ 52 <= Zpos m < 2 ^ 53 -> -52 <= e <= 11 ->
  float64_div (S754_finite false m e) (S754_finite false m e) = float64_one.
Proof.
  intros Hm He. unfold float64_div. cbn [SFdiv xorb].
  rewrite SFdiv_core_53 by lia.
  rewrite (Z.mul_comm (Zpos m)), Z.div_mul, Z.mod_mul by lia.
  rewrite new_location_zero, binary_round_aux_finish.
  rewrite shr_fexp_54 by lia.
  change (shr_1 (shr_record_of_loc (2 ^ 53) loc_Exact))
    with (Build_shr_record (2 ^ 52) false false).
  cbn [shr_m loc_of_shr_record round_nearest_even].
  rewrite finish_normal by lia.
  change (2 ^ 52 =? 2 ^ 53) with false. cbv iota.
  unfold float64_one. f_equal. lia.
Qed.

Lemma float64_div_double m e :
  2 ^ 52 <= Zpos m < 2 ^ 53 -> -52 <= e <= 10 ->
  float64_div (S754_finite false m e) (S754_finite false m (e + 1))
  = float64_half.
Proof.
  intros Hm He. unfold float64_div. cbn [SFdiv xorb].
  rewrite SFdiv_core_53 by lia.
  rewrite (Z.mul_comm (Zpos m)), Z.div_mul, Z.mod_mul by lia.
  rewrite new_location_zero, binary_round_aux_finish.
  rewrite shr_fexp_54 by lia.
  change (shr_1 (shr_record_of_loc (2 ^ 53) loc_Exact))
    with (Build_shr_record (2 ^ 52) false false).
  cbn [shr_m loc_of_shr_record round_nearest_even].
  rewrite finish_normal by lia.
  change (2 ^ 52 =? 2 ^ 53) with false. cbv iota.
  unfold float64_half. f_equal. lia.
Qed.

Lemma round_int_bounds a :
  0 < a < 2 ^ 63 ->
  2 ^ 52 <= fst (round_int a) < 2 ^ 53 /\ -52 <= snd (round_int a) <= 11.
Proof.
  intros Ha.
  pose proof (round_int_mono a a ltac:(lia) ltac:(lia) ltac:(lia))
    as (Hm & _ & He & _).
  split; assumption.
Qed.

Lemma float64_div_self a :
  0 < a < 2 ^ 63 ->
  float64_div (float64_of_int64 a) (float64_of_int64 a) = float64_one.
Proof.
  intros Ha. pose proof (round_int_bounds a Ha) as [Hm He].
  rewrite float64_of_int64_round by exact Ha.
  apply float64_div_same; [rewrite Z2Pos.id by lia; exact Hm | exact He].
Qed.

(** X12: the extreme error rates are exact.  In every state reached from a
    fresh window (fewer than [2^63] calls), [ErrorRate()] is exactly 0.0
    when no failure is counted, and exactly 1.0 when failures are counted
    and no success is: the rounding of the conversion and of the division
    never yields a value just below 1. *)
Theorem ErrorRate_extremes (ops : list op) (s : state) :
  reachable_by ops s ->
  count_ops is_Fail ops + count_ops is_Success ops <= Int64.max_int ->
  (Failures (snd s) = 0 -> ErrorRate (snd s) = float64_zero) /\
  (Successes (snd s) = 0 -> 0 < Failures (snd s) ->
   ErrorRate (snd s) = float64_one).
Proof.
  intros Hreach Hk.
  pose proof (reachable_counted ops s Hreach Hk) as Hc.
  destruct (counted_queries _ _ _ Hc Hk) as (HF & HS & HT & Hf & Hs).
  rewrite ErrorRate_queries, HT, HF, HS. split.
  - intros H0. rewrite H0.
    destruct (0 + sum_success (buckets (snd s)) =? 0) eqn:Hz; [reflexivity|].
    apply Z.eqb_neq in Hz.
    rewrite (float64_of_int64_round (0 + _)) by int64_lia. reflexivity.
  - intros H0 Hpos. rewrite H0, Z.add_0_r.
    destruct (sum_failure (buckets (snd s)) =? 0) eqn:Hz;
      [apply Z.eqb_eq in Hz; lia|].
    apply float64_div_self. int64_lia.
Qed.

Lemma all_failures_reachable :
  reachable_by [OpFail; OpFail; OpFail]
    (clock0, mkWindow [mkBucket 3 0; zero_bucket] (5 * Millisecond) 0 0 0%nat).
Proof.
  exists (10 * Millisecond), 2, clock0, 0%nat,
    (mkWindow [zero_bucket; zero_bucket] (5 * Millisecond) 0 0 0%nat).
  split; reflexivity.
Qed.

Lemma ErrorRate_extremes_witness :
  ErrorRate (mkWindow [mkBucket 3 0; zero_bucket] (5 * Millisecond) 0 0 0%nat)
  = float64_one.
Proof.
  apply (ErrorRate_extremes [OpFail; OpFail; OpFail]
           (clock0, mkWindow [mkBucket 3 0; zero_bucket] (5 * Millisecond) 0 0 0%nat)
           all_failures_reachable).
  - vm_compute. discriminate.
  - reflexivity.
  - reflexivity.
Defined.

Lemma div_double a n : 0 <= n -> 2 * a / 2 ^ (n + 1) = a / 2 ^ n.
Proof.
  intros Hn. rewrite Z.pow_add_r, (Z.mul_comm (2 ^ n)) by lia.
  change (2 ^ 1) with 2.
  apply Z.div_mul_cancel_l; [|lia].
  apply Z.pow_nonzero; lia.
Qed.

Lemma mod_double a n : 0 <= n -> (2 * a) mod 2 ^ (n + 1) = 2 * (a mod 2 ^ n).
Proof.
  intros Hn. rewrite Z.pow_add_r, (Z.mul_comm (2 ^ n)) by lia.
  change (2 ^ 1) with 2.
  apply Z.mul_mod_distr_l; [|lia].
  apply Z.pow_nonzero; lia.
Qed.

Lemma up_double a n : 1 <= n -> up (2 * a) (n + 1) = up a n.
Proof.
  intros Hn. unfold up.
  replace (n + 1 - 1) with (n - 1 + 1) by lia.
  rewrite !div_double, mod_double by lia.
  f_equal. f_equal. f_equal.
  destruct (Z.eqb_spec (a mod 2 ^ (n - 1)) 0) as [E|E].
  - rewrite E. reflexivity.
  - apply Z.eqb_neq. lia.
Qed.

(** Doubling an integer only raises the exponent of its [float64]. *)
Lemma round_int_double a :
  0 < a -> 2 * a < 2 ^ 63 ->
  round_int (2 * a) = (fst (round_int a), snd (round_int a) + 1).
Proof.
  intros Ha H2.
  pose proof (Zdigits2_bounds a ltac:(lia)) as [Hd Hb].
  set (d := Zdigits2 a) in *.
  assert (Hd2 : Zdigits2 (2 * a) = d + 1).
  { apply Zdigits2_unique; [lia|].
    replace (d + 1 - 1) with d by lia.
    rewrite Z.pow_add_r by lia. change (2 ^ 1) with 2.
    replace d with (d - 1 + 1) at 1 by lia.
    rewrite Z.pow_add_r by lia. change (2 ^ 1) with 2. lia. }
  unfold round_int. rewrite Hd2. fold d.
  destruct (Z.leb_spec (d + 1) 53) as [H1|H1].
  - (* both are exact *)
    destruct (Z.leb_spec d 53) as [_|]; [|lia]. cbn [fst snd].
    f_equal; [|lia].
    replace (53 - d) with (53 - (d + 1) + 1) by lia.
    rewrite Z.pow_add_r by lia. change (2 ^ 1) with 2. lia.
  - destruct (Z.leb_spec d 53) as [H3|H3].
    + (* [a] has exactly 53 bits *)
      assert (d = 53) as Hd53 by lia. rewrite Hd53 in *.
      change (53 + 1 - 53) with 1. change (53 - 53) with 0.
      change (2 ^ 0) with 1. change (2 ^ 1) with 2.
      assert (Hup : up (2 * a) 1 = false).
      { unfold up. change (2 ^ (1 - 1)) with 1. rewrite Z.div_1_r.
        rewrite Z.odd_mul. reflexivity. }
      rewrite Hup, (Z.mul_comm 2 a), Z.div_mul, Z.add_0_r by lia.
      destruct (Z.eqb_spec a (2 ^ 53)) as [E|E]; [lia|].
      cbn [fst snd]. f_equal. lia.
    + (* both are rounded, at shifts that differ by one *)
      replace (d + 1 - 53) with (d - 53 + 1) by lia.
      rewrite div_double, up_double by lia.
      destruct (_ =? 2 ^ 53); cbn [fst snd]; f_equal; lia.
Qed.

(** X13: as many failures as successes give exactly 0.5.  In every state
    reached from a fresh window (fewer than [2^63] calls) in which
    [Failures()] and [Successes()] are equal and not 0, [ErrorRate()] is
    the [float64] 0.5, whatever the size of the counts. *)
Theorem ErrorRate_half (ops : list op) (s : state) :
  reachable_by ops s ->
  count_ops is_Fail ops + count_ops is_Success ops <= Int64.max_int ->
  Failures (snd s) = Successes (snd s) -> 0 < Failures (snd s) ->
  ErrorRate (snd s) = float64_half.
Proof.
  intros Hreach Hk Heq Hpos.
  pose proof (reachable_counted ops s Hreach Hk) as Hc.
  destruct (counted_queries _ _ _ Hc Hk) as (HF & HS & HT & Hf & Hs).
  rewrite ErrorRate_queries, HT, HF. rewrite HF, HS in Heq. rewrite HF in Hpos.
  rewrite <- Heq.
  set (a := sum_failure (buckets (snd s))) in *.
  destruct (Z.eqb_spec (a + a) 0) as [E|_]; [lia|].
  assert (Ha : 0 < a < 2 ^ 63) by int64_lia.
  assert (H2 : 2 * a < 2 ^ 63) by int64_lia.
  pose proof (round_int_bounds a Ha) as [Hm He].
  pose proof (round_int_bounds (2 * a) ltac:(lia)) as [_ He2].
  replace (a + a) with (2 * a) by lia.
  rewrite (float64_of_int64_round a), (float64_of_int64_round (2 * a)) by lia.
  rewrite round_int_double in * by lia. cbn [fst snd] in *.
  apply float64_div_double; [rewrite Z2Pos.id by lia; exact Hm | lia].
Qed.

Lemma ErrorRate_half_witness :
  ErrorRate (mkWindow [mkBucket 1 1; zero_bucket] (5 * Millisecond) 0 0 0%nat)
  = float64_half.
Proof.
  apply (ErrorRate_half [OpFail; OpFail; OpReset; OpSuccess; OpFail]
           (clock0, mkWindow [mkBucket 1 1; zero_bucket] (5 * Millisecond) 0 0 0%nat)
           example_reset_reachable).
  - vm_compute. discriminate.
  - reflexivity.
  - reflexivity.
Defined.

(** ** The first lap of the cursor *)

Lemma Sub_le_diff t u : u <= t -> 0 <= Sub t u <= t - u.
Proof. unfold Sub, Int64.min_int, Int64.max_int. lia. Qed.

Lemma first_lap_cursor t0 c bt n cs w :
  first_lap t0 c bt n cs w -> 0 < bt -> Now cs c - t0 < n * bt ->
  lastIdx w < n.
Proof. intros [? ? ? ? ? ? ? ?] Hbt HT. nia. Qed.

(** During the first lap a rotation only moves the cursor: the buckets it
    resets were still empty. *)
Lemma getLatestBucket_first_lap t0 c bt n cs w w' b :
  first_lap t0 c bt n cs w -> 0 < bt -> 0 < n < 2 ^ 63 ->
  Now cs c - t0 < n * bt ->
  getLatestBucket cs w = Returns (w', b) ->
  first_lap t0 c bt n cs w' /\ buckets w' = buckets w /\
  b = Z.to_nat (lastIdx w') /\ lastIdx w' < n.
Proof.
  intros Hfl Hbt Hn HT Hget.
  pose proof (first_lap_cursor _ _ _ _ _ _ Hfl Hbt HT) as Hcur.
  destruct Hfl as [Hlen Hbtw Hc Hlo Hpace Hpast Hahead Hnn]. subst c bt n.
  assert (Hnw : 0 < len w) by lia.
  destruct (Z.le_gt_cases (Sub (Now cs (clock w)) (lastAccess w)) (bucketTime w))
    as [He|He].
  - rewrite getLatestBucket_same in Hget by assumption.
    inversion Hget; subst w' b.
    split; [constructor; try assumption; reflexivity|]. split; [reflexivity|].
    split; [|exact Hcur]. rewrite Z.mod_small by lia. reflexivity.
  - destruct (getLatestBucket_rotates cs w Hnw ltac:(lia) He)
      as (w1 & b1 & Hget1 & [HI HC HR HK] & Hf1 & Hf3 & Hf4).
    rewrite Hget in Hget1. inversion Hget1; subst w' b1. clear Hget1.
    set (e := Sub (Now cs (clock w)) (lastAccess w)) in *.
    set (k := Z.min (len w) (e / bucketTime w)) in *.
    pose proof (Sub_le_diff (Now cs (clock w)) (lastAccess w) Hpast) as He'.
    fold e in He'.
    assert (Hk : 1 <= k /\ k * bucketTime w <= e).
    { assert (1 <= e / bucketTime w) by (apply Z.div_le_lower_bound; lia).
      pose proof (Z.mul_div_le e (bucketTime w) ltac:(lia)).
      unfold k. split; [lia | nia]. }
    assert (Hnew : lastIdx w + k < len w).
    { apply (Z.mul_lt_mono_pos_r (bucketTime w)); [exact Hbt|].
      rewrite Z.mul_add_distr_r. lia. }
    assert (Hidx : lastIdx w1 = lastIdx w + k).
    { rewrite HI. unfold Uint64.wrap. apply Z.mod_small. lia. }
    assert (Hring : forall j, 1 <= j <= k ->
              ring_index w j = Z.to_nat (lastIdx w + j)).
    { intros j Hj. unfold ring_index, Uint64.wrap.
      rewrite (Z.mod_small (lastIdx w + j) (2 ^ 64)) by lia.
      rewrite Z.mod_small by lia. reflexivity. }
    assert (Hbs : buckets w1 = buckets w).
    { apply list_eq. intros i.
      destruct (decide (lastIdx w < Z.of_nat i <= lastIdx w + k)) as [Hin|Hout].
      - replace i with (ring_index w (Z.of_nat i - lastIdx w))
          by (rewrite Hring by lia; lia).
        rewrite HR by lia. symmetry. rewrite Hring by lia.
        apply Hahead; unfold len in *; lia.
      - apply HK. intros j Hj. rewrite Hring by exact Hj. lia. }
    split; [|split; [exact Hbs|split]].
    + constructor; simpl; try assumption.
      * unfold len in *. simpl. lia.
      * lia.
      * rewrite Hidx, Z.mul_add_distr_r. lia.
      * lia.
      * intros i Hi Hlt. simpl in *. rewrite Hbs in *. apply Hahead; lia.
      * now rewrite Hbs.
    + simpl. rewrite Hidx. rewrite Z.mod_small by lia. reflexivity.
    + simpl. lia.
Qed.

Lemma run_clock_mono ops : forall cs w cs' w' c,
  forward_only ops = true -> run (cs, w) ops = Returns (cs', w') ->
  Now cs c <= Now cs' c.
Proof.
  induction ops as [|o ops IH]; intros cs w cs' w' c Hfw Hrun.
  - inversion Hrun; subst. lia.
  - cbn [run] in Hrun.
    destruct (step (cs, w) o) as [[cs1 w1]|e] eqn:Hstep; [|discriminate].
    cbn [bind] in Hrun.
    assert (Hmono : Now cs c <= Now cs1 c /\ forward_only ops = true).
    { destruct o; cbn [step forward_only] in *.
      - destruct (Fail cs w); inversion Hstep; subst. split; [lia | exact Hfw].
      - destruct (Success cs w); inversion Hstep; subst. split; [lia | exact Hfw].
      - inversion Hstep; subst. split; [lia | exact Hfw].
      - inversion Hstep; subst. apply andb_true_iff in Hfw as [Hd Hfw].
        apply Z.leb_le in Hd. split; [|exact Hfw].
        rewrite Now_clock_Add. destruct (Nat.eqb _ _); lia. }
    destruct Hmono as [H1 Hfw']. specialize (IH cs1 w1 cs' w' c Hfw' Hrun). lia.
Qed.

Lemma run_first_lap t0 c bt n ops : forall cs w cs' w',
  first_lap t0 c bt n cs w -> 0 < bt -> 0 < n < 2 ^ 63 ->
  count_ops is_Reset ops = 0 -> forward_only ops = true ->
  run (cs, w) ops = Returns (cs', w') ->
  Now cs' c - t0 < n * bt ->
  sum_all (buckets w) + count_ops is_Fail ops + count_ops is_Success ops
    <= Int64.max_int ->
  sum_failure (buckets w') = sum_failure (buckets w) + count_ops is_Fail ops /\
  sum_success (buckets w') = sum_success (buckets w) + count_ops is_Success ops /\
  nonneg (buckets w').
Proof.
  induction ops as [|o ops IH]; intros cs w cs' w' Hfl Hbt Hn Hres Hfw Hrun HT Hsum.
  - inversion Hrun; subst. simpl. destruct Hfl. repeat split; try lia. assumption.
  - pose proof (count_ops_nonneg is_Reset ops) as HR0.
    pose proof (count_ops_nonneg is_Fail ops) as HN0.
    pose proof (count_ops_nonneg is_Success ops) as HM0.
    cbn [run] in Hrun.
    destruct (step (cs, w) o) as [[cs1 w1]|e] eqn:Hstep; [|discriminate].
    cbn [bind] in Hrun.
    assert (Hfw1 : forward_only ops = true).
    { destruct o; cbn [forward_only] in Hfw; try exact Hfw.
      apply andb_true_iff in Hfw as [_ Hfw]. exact Hfw. }
    pose proof (run_clock_mono ops cs1 w1 cs' w' c Hfw1 Hrun) as Hmono.
    assert (Hnw : 0 < len w) by (destruct Hfl; lia).
    assert (Hnn : nonneg (buckets w)) by (destruct Hfl; assumption).
    destruct o; cbn [step count_ops is_Reset is_Fail is_Success] in *.
    + (* Fail *)
      destruct (getLatestBucket_returns cs w Hnw) as (wr & b & Hget & Hb & _).
      unfold Fail in Hstep. rewrite Hget in Hstep. cbn [bind] in Hstep.
      inversion Hstep; subst cs1 w1. clear Hstep.
      destruct (getLatestBucket_first_lap t0 c bt n cs w wr b Hfl Hbt Hn
                  ltac:(lia) Hget) as (Hflr & Hbs & Hbidx & Hcur).
      destruct (record_Fail b (buckets wr) Hb) as (Hnn1 & Hf1 & Hs1).
      { rewrite Hbs. exact Hnn. }
      { rewrite Hbs. lia. }
      destruct (IH cs (set_buckets wr (alter bucket_Fail b (buckets wr))) cs' w')
        as (Hf & Hs & Hnn'); try assumption; try lia.
      * destruct Hflr as [Hlen Hbtw Hc Hlo Hpace Hpast Hahead _].
        constructor; simpl; try assumption.
        -- unfold len in *. simpl. now rewrite length_alter.
        -- intros i Hi Hlt. simpl in *. rewrite length_alter in Hlt.
           rewrite list_lookup_alter_ne by lia. now apply Hahead.
      * unfold sum_all in *. simpl. rewrite Hf1, Hs1, Hbs. lia.
      * simpl in Hf, Hs. rewrite Hf, Hs, Hf1, Hs1, Hbs.
        split; [lia|]. split; [lia | exact Hnn'].
    + (* Success *)
      destruct (getLatestBucket_returns cs w Hnw) as (wr & b & Hget & Hb & _).
      unfold Success in Hstep. rewrite Hget in Hstep. cbn [bind] in Hstep.
      inversion Hstep; subst cs1 w1. clear Hstep.
      destruct (getLatestBucket_first_lap t0 c bt n cs w wr b Hfl Hbt Hn
                  ltac:(lia) Hget) as (Hflr & Hbs & Hbidx & Hcur).
      destruct (record_Success b (buckets wr) Hb) as (Hnn1 & Hf1 & Hs1).
      { rewrite Hbs. exact Hnn. }
      { rewrite Hbs. lia. }
      destruct (IH cs (set_buckets wr (alter bucket_Success b (buckets wr))) cs' w')
        as (Hf & Hs & Hnn'); try assumption; try lia.
      * destruct Hflr as [Hlen Hbtw Hc Hlo Hpace Hpast Hahead _].
        constructor; simpl; try assumption.
        -- unfold len in *. simpl. now rewrite length_alter.
        -- intros i Hi Hlt. simpl in *. rewrite length_alter in Hlt.
           rewrite list_lookup_alter_ne by lia. now apply Hahead.
      * unfold sum_all in *. simpl. rewrite Hf1, Hs1, Hbs. lia.
      * simpl in Hf, Hs. rewrite Hf, Hs, Hf1, Hs1, Hbs.
        split; [lia|]. split; [lia | exact Hnn'].
    + lia.
    + (* the clock moves forward *)
      inversion Hstep; subst cs1 w1. clear Hstep.
      cbn [forward_only] in Hfw. apply andb_true_iff in Hfw as [Hd _].
      apply Z.leb_le in Hd.
      destruct (IH (clock_Add cs c0 d) w cs' w') as (Hf & Hs & Hnn');
        try assumption; try lia.
      * destruct Hfl as [Hlen Hbtw Hc Hlo Hpace Hpast Hahead Hnn0].
        constructor; try assumption.
        rewrite Now_clock_Add. destruct (Nat.eqb _ _); lia.
      * split; [lia|]. split; [lia | exact Hnn'].
Qed.

(** X14: everything recorded during the first window duration is
    counted.  On a fresh window with a positive bucket duration and a
    clock that is never set back, as long as the clock reads less than
    [bucketCount * bucketTime] past the construction, the cursor has not
    come round to a bucket that was written: whatever the calls and the
    rotations in between, [Failures()] and [Successes()] are exactly the
    numbers of [Fail] and [Success] calls (fewer than [2^63] in all, no
    [Reset]) and [Total()] is their sum. *)
Theorem counts_within_first_window
    (windowTime : Duration) (windowBuckets : Z) (cs0 cs : clocks) (c : Clock)
    (w0 w : window) (ops : list op) :
  let N := count_ops is_Fail ops in
  let M := count_ops is_Success ops in
  newWindow windowTime windowBuckets cs0 c = Returns w0 ->
  windowBuckets < 2 ^ 63 -> 0 < bucketTime w0 ->
  count_ops is_Reset ops = 0 -> forward_only ops = true ->
  run (cs0, w0) ops = Returns (cs, w) ->
  Now cs c - Now cs0 c < windowBuckets * bucketTime w0 ->
  N + M <= Int64.max_int ->
  Failures w = N /\ Successes w = M /\ Total w = N + M.
Proof.
  intros N M Hnew Hn63 Hbt Hres Hfw Hrun HT Hsum.
  pose proof (newWindow_counted _ _ _ _ _ Hnew) as (Hn & Hnn & Hf0 & Hs0).
  pose proof (nonneg_sums _ Hnn) as [Hf0' Hs0'].
  apply newWindow_returns in Hnew as [Hpos Hw0].
  assert (Hfl : first_lap (Now cs0 c) c (bucketTime w0) windowBuckets cs0 w0).
  { subst w0. constructor; simpl; try lia; try reflexivity.
    - unfold len. simpl. rewrite length_replicate. lia.
    - intros i _ Hi. simpl in *. rewrite length_replicate in Hi.
      now apply lookup_replicate_2.
    - apply nonneg_replicate. }
  destruct (run_first_lap (Now cs0 c) c (bucketTime w0) windowBuckets ops
              cs0 w0 cs w Hfl Hbt ltac:(lia) Hres Hfw Hrun HT)
    as (Hf & Hs & Hnn').
  { unfold sum_all. fold N M. lia. }
  fold N in Hf. fold M in Hs.
  pose proof (count_ops_nonneg is_Fail ops) as HN.
  pose proof (count_ops_nonneg is_Success ops) as HM. fold N in HN. fold M in HM.
  assert (HF : Failures w = N).
  { rewrite Failures_sum, Hf. rewrite wrap_id; [lia | int64_lia]. }
  assert (HS : Successes w = M).
  { rewrite Successes_sum, Hs. rewrite wrap_id; [lia | int64_lia]. }
  split; [exact HF|]. split; [exact HS|].
  rewrite Total_add, HF, HS. apply wrap_id. int64_lia.
Qed.

Lemma counts_within_first_window_witness :
  Failures example_window = 3 /\ Successes example_window = 1 /\
  Total example_window = 3 + 1.
Proof.
  apply (counts_within_first_window (10 * Millisecond) 2 clock0
           (fst example_state) 0%nat
           (mkWindow [zero_bucket; zero_bucket] (5 * Millisecond) 0 0 0%nat)
           example_window example_ops).
  - reflexivity.
  - reflexivity.
  - reflexivity.
  - reflexivity.
  - reflexivity.
  - reflexivity.
  - reflexivity.
  - vm_compute. discriminate.
Defined.

(** ** A bucket duration of zero *)

(** With a bucket duration of 0 the loop's exit test [elapsed < bucketTime]
    never holds: the loop runs its [iters] turns. *)
Lemma rotate_zero_bucketTime iters : forall w b e w' b',
  0 < len w -> bucketTime w = 0 -> 0 <= e <= Int64.max_int ->
  rotate (S iters) w b e = (w', b') ->
  advanced (Z.of_nat (S iters)) w w' b'.
Proof.
  induction iters as [|iters IH]; intros w b e w' b' Hn Hbt He H.
  - simpl in H.
    assert (Hres : (w', b') =
      ({| buckets := alter bucket_Reset
                       (Z.to_nat (Uint64.add (lastIdx w) 1 mod len w)) (buckets w);
          bucketTime := bucketTime w; lastAccess := lastAccess w;
          lastIdx := Uint64.add (lastIdx w) 1; clock := clock w |},
       Z.to_nat (Uint64.add (lastIdx w) 1 mod len w)))
      by (destruct (_ <? _); congruence).
    clear H. inversion Hres; subst; clear Hres.
    pose proof (Z.mod_pos_bound (Uint64.add (lastIdx w) 1) (len w) Hn) as Hlt.
    split; simpl.
    + reflexivity.
    + reflexivity.
    + intros j Hj. assert (j = 1) as -> by lia.
      unfold ring_index. fold (Uint64.add (lastIdx w) 1).
      rewrite list_lookup_alter_eq.
      destruct (lookup_lt_is_Some_2 (buckets w)
                  (Z.to_nat (Uint64.add (lastIdx w) 1 mod len w))) as [x Hx].
      { unfold len in *. lia. }
      rewrite Hx. reflexivity.
    + intros i Hi. apply list_lookup_alter_ne.
      specialize (Hi 1 ltac:(lia)). unfold ring_index in Hi.
      fold (Uint64.add (lastIdx w) 1) in Hi. congruence.
  - remember (S iters) as it eqn:Hit.
    simpl in H.
    set (idx := Uint64.add (lastIdx w) 1) in *.
    set (b1 := Z.to_nat (idx mod len w)) in *.
    set (w1 := {| buckets := alter bucket_Reset b1 (buckets w);
                  bucketTime := bucketTime w; lastAccess := lastAccess w;
                  lastIdx := idx; clock := clock w |}) in *.
    assert (He' : Int64.sub e (bucketTime w) = e).
    { rewrite Hbt. unfold Int64.sub. rewrite Z.sub_0_r. apply wrap_id. int64_lia. }
    rewrite He' in H.
    destruct (e <? bucketTime w) eqn:Hcmp; [apply Z.ltb_lt in Hcmp; lia|].
    pose proof (Z.mod_pos_bound idx (len w) Hn) as Hlt.
    assert (Hb1 : buckets w1 !! b1 = Some zero_bucket).
    { simpl. rewrite list_lookup_alter_eq.
      destruct (lookup_lt_is_Some_2 (buckets w) b1) as [x Hx].
      { unfold b1, len in *. lia. }
      rewrite Hx. reflexivity. }
    assert (Hlen1 : len w1 = len w).
    { unfold len. simpl. now rewrite length_alter. }
    assert (Hidx1 : forall j, ring_index w1 j = ring_index w (1 + j)).
    { intros j. unfold ring_index. rewrite Hlen1. simpl. unfold idx.
      now rewrite uint64_wrap_succ. }
    assert (Hb1' : b1 = ring_index w 1).
    { unfold b1, ring_index, idx, Uint64.add. reflexivity. }
    subst it.
    pose proof (rotate_keeps_zero _ _ _ _ _ _ b1 H Hb1) as Hkeep.
    apply IH in H; [| lia | exact Hbt | exact He].
    replace (Z.of_nat (S (S iters))) with (1 + Z.of_nat (S iters)) by lia.
    destruct H as [HI HC HR HK].
    split.
    + rewrite HI. simpl. unfold idx. now rewrite uint64_wrap_succ.
    + rewrite HC, Hlen1. reflexivity.
    + intros j Hj. destruct (decide (j = 1)) as [->|Hj1].
      * rewrite <- Hb1'. exact Hkeep.
      * replace j with (1 + (j - 1)) by lia. rewrite <- Hidx1.
        apply HR. lia.
    + intros i Hi. rewrite HK.
      * simpl. apply list_lookup_alter_ne.
        specialize (Hi 1 ltac:(lia)). congruence.
      * intros j Hj. rewrite Hidx1. apply Hi. lia.
Qed.

Lemma getLatestBucket_zero_bucketTime cs w :
  0 < len w -> bucketTime w = 0 ->
  0 <= lastIdx w -> lastIdx w + len w < 2 ^ 64 ->
  0 < Sub (Now cs (clock w)) (lastAccess w) ->
  exists w' b,
    getLatestBucket cs w = Returns (w', b) /\
    (b < length (buckets w'))%nat /\
    buckets w' = replicate (length (buckets w)) zero_bucket /\
    lastIdx w' = lastIdx w + len w /\
    lastAccess w' = Now cs (clock w) /\
    bucketTime w' = 0 /\ clock w' = clock w.
Proof.
  intros Hn Hbt Hlo Hhi He.
  destruct (getLatestBucket_returns cs w Hn) as (wr & br & Hget & Hb & _).
  exists wr, br. split; [exact Hget|]. split; [exact Hb|].
  revert Hget. unfold getLatestBucket, uint64_mod.
  destruct (len w =? 0) eqn:H0; [apply Z.eqb_eq in H0; lia|]. simpl.
  destruct (bucketTime w <? _) eqn:Hlt; [|apply Z.ltb_ge in Hlt; lia].
  destruct (rotate _ _ _ _) as [w' b'] eqn:Hrot.
  intros Hget. inversion Hget; subst wr br. clear Hget. simpl.
  pose proof (rotate_frame _ _ _ _ _ _ Hrot) as (Hf1 & _ & Hf3 & Hf4).
  assert (Hlen : exists m, Z.to_nat (len w) = S m).
  { exists (Nat.pred (Z.to_nat (len w))). lia. }
  destruct Hlen as [m Hm]. rewrite Hm in Hrot.
  apply rotate_zero_bucketTime in Hrot; try assumption.
  - rewrite <- Hm in Hrot. rewrite Z2Nat.id in Hrot by lia.
    split; [exact (advanced_full w w' b' Hlo Hhi Hf4 Hrot)|].
    destruct Hrot as [HI _ _ _].
    split; [rewrite HI; unfold Uint64.wrap; apply Z.mod_small; lia|].
    split; [reflexivity|]. split; [congruence | exact Hf3].
  - pose proof (Sub_range (Now cs (clock w)) (lastAccess w)) as Hr.
    unfold Int64.in_range in Hr. lia.
Qed.

(** X15: a window whose bucket duration is 0 (what [newWindow] computes
    when [0 <= windowTime < windowBuckets], the division being integral)
    forgets everything whenever time has passed: on such a window, if the
    clock is past [lastAccess] at all, [getLatestBucket] resets every bucket
    and moves the cursor a whole lap (its exit test never holds), so after
    a [Fail] the window reports one failure and no success, and after a
    [Success] one success and no failure, whatever it held before.  The
    cursor is assumed not to wrap around its 64 bits during the call. *)
Theorem zero_bucketTime_forgets (cs : clocks) (w : window) :
  0 < len w -> bucketTime w = 0 ->
  0 <= lastIdx w -> lastIdx w + len w < 2 ^ 64 ->
  lastAccess w < Now cs (clock w) ->
  (exists w' b,
     getLatestBucket cs w = Returns (w', b) /\
     buckets w' = replicate (length (buckets w)) zero_bucket /\
     lastIdx w' = lastIdx w + len w /\
     lastAccess w' = Now cs (clock w)) /\
  (exists wf,
     Fail cs w = Returns wf /\
     Failures wf = 1 /\ Successes wf = 0 /\ Total wf = 1) /\
  (exists ws,
     Success cs w = Returns ws /\
     Failures ws = 0 /\ Successes ws = 1 /\ Total ws = 1).
Proof.
  intros Hn Hbt Hlo Hhi Hlate.
  assert (He : 0 < Sub (Now cs (clock w)) (lastAccess w)).
  { unfold Sub, Int64.min_int, Int64.max_int. lia. }
  destruct (getLatestBucket_zero_bucketTime cs w Hn Hbt Hlo Hhi He)
    as (w' & b & Hget & Hb & Hbs & HI & Hla & _ & _).
  assert (Hnn : nonneg (buckets w')) by (rewrite Hbs; apply nonneg_replicate).
  assert (Hsum : sum_all (buckets w') < Int64.max_int).
  { unfold sum_all. rewrite Hbs, sum_failure_replicate, sum_success_replicate.
    reflexivity. }
  assert (Hf0 : sum_failure (buckets w') = 0)
    by (rewrite Hbs; apply sum_failure_replicate).
  assert (Hs0 : sum_success (buckets w') = 0)
    by (rewrite Hbs; apply sum_success_replicate).
  split; [exists w', b; auto|]. split.
  - destruct (record_Fail b (buckets w') Hb Hnn Hsum) as (_ & Hf & Hs).
    exists (set_buckets w' (alter bucket_Fail b (buckets w'))).
    unfold Fail. rewrite Hget. cbn [bind]. split; [reflexivity|].
    rewrite Total_sum, Failures_sum, Successes_sum. simpl buckets.
    rewrite Hf, Hs, Hf0, Hs0. repeat split.
  - destruct (record_Success b (buckets w') Hb Hnn Hsum) as (_ & Hf & Hs).
    exists (set_buckets w' (alter bucket_Success b (buckets w'))).
    unfold Success. rewrite Hget. cbn [bind]. split; [reflexivity|].
    rewrite Total_sum, Failures_sum, Successes_sum. simpl buckets.
    rewrite Hf, Hs, Hf0, Hs0. repeat split.
Qed.

Lemma zero_bucketTime_forgets_witness :
  newWindow 1 2 clock0 0%nat
    = Returns (mkWindow [zero_bucket; zero_bucket] 0 0 0 0%nat) /\
  exists wf,
    Fail late_clock (mkWindow [mkBucket 4 2; mkBucket 1 7] 0 0 0 0%nat)
      = Returns wf /\
    Failures wf = 1 /\ Successes wf = 0 /\ Total wf = 1.
Proof.
  split; [reflexivity|].
  apply (zero_bucketTime_forgets late_clock
           (mkWindow [mkBucket 4 2; mkBucket 1 7] 0 0 0 0%nat));
    reflexivity.
Defined.
